(** * A pooling allocator and its owning container (src/main.cpp)

    Shallow embedding of [MyAllocator<T, BlockSize>], [MyContainer<T, Allocator>],
    [factorial] and the two demonstration loops of [main], followed by the
    properties of the specification that are settled against them.

    Conventions of the embedding.
    - Addresses are natural numbers ([N]).  [::operator new] hands out the
      addresses [next_addr], [next_addr + 1], ... and never hands an address
      out twice (block identities, as in block-based memory models).
    - [::operator new] fails with [std::bad_alloc] when the request exceeds
      the bytes that are left ([room]); a C++ exception leaves the mutations
      made so far in place, so every computation returns the state it reached
      together with its outcome.
    - Undefined behaviour ([back()] on an empty vector, [::operator delete] of
      an address that is not a live block, reading through a pointer that
      holds no object, signed overflow) is an outcome of its own.
    - [std::vector] is a list whose end is the back of the vector; growth of
      a vector's own storage is taken to succeed.
    - [size_t] is 64 bits wide.
    - The null pointer is not modelled: no path of the program produces one.
    - The [trace] of a world is instrumentation: it records every successful
      [::operator new], every [::operator delete], every entry into
      [expand()], and every call the container makes through
      [std::allocator_traits]. *)

From stdpp Require Import gmap list strings pretty.
From Stdlib Require Import ZArith NArith Lia Ascii Sorted.

Set Default Proof Using "Type".
Local Open Scope N_scope.

(** ** Outcomes and the state monad that carries them *)

Inductive exn := bad_alloc.

Inductive outcome (A : Type) :=
| Ok (a : A)
| Throw (e : exn)
| UB.
Arguments Ok {A} a.
Arguments Throw {A} e.
Arguments UB {A}.

Definition M (S A : Type) : Type := S → outcome A * S.

Definition ret {S A} (a : A) : M S A := λ s, (Ok a, s).

Definition bind {S A B} (m : M S A) (k : A → M S B) : M S B :=
  λ s, match m s with
       | (Ok a, s') => k a s'
       | (Throw e, s') => (Throw e, s')
       | (UB, s') => (UB, s')
       end.

Definition get {S} : M S S := λ s, (Ok s, s).
Definition modify {S} (f : S → S) : M S unit := λ s, (Ok tt, f s).
Definition throw {S A} (e : exn) : M S A := λ s, (Throw e, s).
Definition undefined {S A} : M S A := λ s, (UB, s).

Declare Scope cpp_scope.
Delimit Scope cpp_scope with cpp.
Notation "'let*' x ':=' m 'in' k" := (bind m (λ x, k))
  (at level 10, x name, m at level 100, k at level 200) : cpp_scope.
Notation "m ;;; k" := (bind m (λ _, k))
  (at level 100, right associativity) : cpp_scope.
Local Open Scope cpp_scope.

(** Run a computation on the second component of a pair of states. *)
Definition in_world {O W A} (m : M W A) : M (O * W) A :=
  λ '(o, w), let '(r, w') := m w in (r, (o, w')).

(** Run a computation on the first component of a pair of states. *)
Definition in_object {O W A} (m : M O A) : M (O * W) A :=
  λ '(o, w), let '(r, o') := m o in (r, (o', w)).

(** A [for] loop over the elements of a list, stopping at the first
    exception or undefined behaviour. *)
Fixpoint for_each {S A} (f : A → M S unit) (l : list A) : M S unit :=
  match l with
  | [] => ret tt
  | x :: l' => f x ;;; for_each f l'
  end.

(** ** The world: system heap, objects, trace, standard output *)

Abbreviation ptr := N (only parsing).

Inductive event :=
| EvNew (bytes : N) (p : ptr)
| EvDelete (p : ptr)
| EvExpand
| EvAllocate (n : N) (p : ptr)
| EvConstruct (p : ptr)
| EvDestroy (p : ptr)
| EvDeallocate (p : ptr) (n : N).

Global Instance event_eq_dec : EqDecision event.
Proof. solve_decision. Defined.

Record World (T : Type) := mkWorld {
  next_addr : N;          (* the next address ::operator new hands out *)
  room : N;               (* bytes the system allocator can still give *)
  live : gmap N N;        (* live system blocks and their sizes *)
  objs : gmap N T;        (* constructed objects, by address *)
  trace : list event;
  cout : list string      (* what was written to std::cout, in order *)
}.
Arguments mkWorld {T}.
Arguments next_addr {T}.
Arguments room {T}.
Arguments live {T}.
Arguments objs {T}.
Arguments trace {T}.
Arguments cout {T}.

Definition size_t_modulus : N := 2 ^ 64.

Section World.
Context {T : Type}.

Definition world_log (e : event) (w : World T) : World T :=
  mkWorld (next_addr w) (room w) (live w) (objs w) (trace w ++ [e]) (cout w).

Definition log (e : event) : M (World T) unit := modify (world_log e).

(** [std::cout << s] *)
Definition world_print (s : string) (w : World T) : World T :=
  mkWorld (next_addr w) (room w) (live w) (objs w) (trace w) (cout w ++ [s]).

Definition print_string (s : string) : M (World T) unit :=
  modify (world_print s).

(** The world after [::operator new(bytes)] has returned [next_addr w]. *)
Definition world_new (bytes : N) (w : World T) : World T :=
  mkWorld (N.succ (next_addr w)) (room w - bytes)
          (<[next_addr w := bytes]> (live w)) (objs w)
          (trace w ++ [EvNew bytes (next_addr w)]) (cout w).

(** [::operator new(bytes)] *)
Definition operator_new (bytes : N) : M (World T) ptr :=
  λ w, if bytes <=? room w
       then (Ok (next_addr w), world_new bytes w)
       else (Throw bad_alloc, w).

(** [::operator delete(p)] *)
Definition world_delete (p : ptr) (bytes : N) (w : World T) : World T :=
  mkWorld (next_addr w) (room w + bytes) (delete p (live w)) (objs w)
          (trace w ++ [EvDelete p]) (cout w).

Definition operator_delete (p : ptr) : M (World T) unit :=
  λ w, match live w !! p with
       | Some bytes => (Ok tt, world_delete p bytes w)
       | None => (UB, w)
       end.

(** Placement new: [new (p) U(v)]. *)
Definition world_construct (p : ptr) (v : T) (w : World T) : World T :=
  mkWorld (next_addr w) (room w) (live w) (<[p := v]> (objs w))
          (trace w) (cout w).

Definition placement_new (p : ptr) (v : T) : M (World T) unit :=
  modify (world_construct p v).

(** Explicit destructor call: [p->~U()]. *)
Definition world_destroy (p : ptr) (w : World T) : World T :=
  mkWorld (next_addr w) (room w) (live w) (delete p (objs w))
          (trace w) (cout w).

Definition destructor_call (p : ptr) : M (World T) unit :=
  modify (world_destroy p).

(** Reading [*p]. *)
Definition deref (p : ptr) : M (World T) T :=
  λ w, match objs w !! p with
       | Some v => (Ok v, w)
       | None => (UB, w)
       end.

(** Updating the object a pointer refers to. *)
Definition assign (p : ptr) (f : T → T) : M (World T) unit :=
  let* v := deref p in placement_new p (f v).
End World.

(** [sizeof(T)] *)
Class SizeOf (T : Type) := { sizeof : N }.

(** ** MyAllocator<T, BlockSize> *)

Record MyAllocator (T : Type) (BlockSize : N) := mkAlloc {
  free_blocks : list ptr
}.
Arguments mkAlloc {T BlockSize}.
Arguments free_blocks {T BlockSize}.

Section MyAllocator.
Context {T : Type} `{SizeOf T} {BlockSize : N}.
Abbreviation Alloc := (MyAllocator T BlockSize).
Abbreviation St := (Alloc * World T)%type.

(** [MyAllocator() noexcept = default] *)
Definition MyAllocator_default : Alloc := mkAlloc [].

(** [template <typename U> MyAllocator(const MyAllocator<U, BlockSize>&)]:
    the body is empty, the new allocator starts with no free block. *)
Definition MyAllocator_rebind {U : Type} (other : MyAllocator U BlockSize) : Alloc :=
  mkAlloc [].

(** [free_blocks.push_back(p)] *)
Definition free_blocks_push_back (p : ptr) : M St unit :=
  in_object (modify (λ a : Alloc, mkAlloc (free_blocks a ++ [p]))).

(** The loop of [expand()], with [k] iterations left. *)
Fixpoint expand_loop (k : nat) : M St unit :=
  match k with
  | O => ret tt
  | S k' =>
      let* p := in_world (operator_new sizeof) in
      free_blocks_push_back p ;;;
      expand_loop k'
  end.

(** [void expand()] *)
Definition expand : M St unit :=
  in_world (log EvExpand) ;;;
  expand_loop (N.to_nat BlockSize).

(** [free_blocks.back()] followed by [free_blocks.pop_back()]. *)
Definition free_blocks_take_back : M St ptr :=
  λ '(a, w), match last (free_blocks a) with
             | Some p => (Ok p, (mkAlloc (removelast (free_blocks a)), w))
             | None => (UB, (a, w))
             end.

(** [free_blocks.empty()] *)
Definition free_blocks_empty : M St bool :=
  λ '(a, w), (Ok (bool_decide (free_blocks a = [])), (a, w)).

(** [pointer allocate(size_type n)]: the system allocator when [n] exceeds
    [BlockSize]; otherwise the back of the pool, expanded first when it is
    empty. *)
Definition allocate (n : N) : M St ptr :=
  if BlockSize <? n
  then in_world (operator_new ((n * sizeof) mod size_t_modulus))
  else
    let* none_free := free_blocks_empty in
    (if none_free then expand else ret tt) ;;;
    free_blocks_take_back.

(** [void deallocate(pointer p, size_type n) noexcept] *)
Definition deallocate (p : ptr) (n : N) : M St unit :=
  if BlockSize <? n
  then in_world (operator_delete p)
  else free_blocks_push_back p.

(** [void construct(U* p, Args&&... args)] *)
Definition construct (p : ptr) (v : T) : M St unit :=
  in_world (placement_new p v).

(** [void destroy(U* p)] *)
Definition destroy (p : ptr) : M St unit :=
  in_world (destructor_call p).
End MyAllocator.

(** [operator==] and [operator!=] on allocators of one batch size. *)
Definition operator_eq {T U : Type} {BlockSize : N}
    (a : MyAllocator T BlockSize) (b : MyAllocator U BlockSize) : bool := true.

Definition operator_ne {T U : Type} {BlockSize : N}
    (a : MyAllocator T BlockSize) (b : MyAllocator U BlockSize) : bool := false.

(** ** The allocator capability

    What [std::allocator_traits<Allocator>] needs of an allocator: the four
    member functions the container calls. *)

Class Allocator (T : Type) (A : Type) := {
  alloc_allocate : N → M (A * World T) ptr;
  alloc_deallocate : ptr → N → M (A * World T) unit;
  alloc_construct : ptr → T → M (A * World T) unit;
  alloc_destroy : ptr → M (A * World T) unit
}.

Global Instance MyAllocator_Allocator (T : Type) `{SizeOf T} (BlockSize : N) :
  Allocator T (MyAllocator T BlockSize) := {
  alloc_allocate := allocate;
  alloc_deallocate := deallocate;
  alloc_construct := construct;
  alloc_destroy := destroy
}.

(** [std::allocator<T>] of the standard library, the container's default:
    it has no state and goes to [::operator new] and [::operator delete]
    for every request. *)
Inductive StdAllocator (T : Type) := std_allocator.
Arguments std_allocator {T}.

Global Instance StdAllocator_Allocator (T : Type) `{SizeOf T} :
  Allocator T (StdAllocator T) := {
  alloc_allocate n :=
    if size_t_modulus <=? n * sizeof
    then throw bad_alloc
    else in_world (operator_new (n * sizeof));
  alloc_deallocate p n := in_world (operator_delete p);
  alloc_construct p v := in_world (placement_new p v);
  alloc_destroy p := in_world (destructor_call p)
}.

(** ** MyContainer<T, Allocator> *)

Record MyContainer (T A : Type) := mkContainer {
  alloc_ : A;
  elements_ : list ptr;
  size_ : N
}.
Arguments mkContainer {T A}.
Arguments alloc_ {T A}.
Arguments elements_ {T A}.
Arguments size_ {T A}.

Section MyContainer.
Context {T A : Type} `{Allocator T A} `{Pretty T}.
Abbreviation Cont := (MyContainer T A).
Abbreviation CSt := (Cont * World T)%type.

(** A member function of [alloc_], run on the container's state. *)
Definition on_alloc {X} (m : M (A * World T) X) : M CSt X :=
  λ '(c, w), let '(r, (a', w')) := m (alloc_ c, w) in
             (r, (mkContainer a' (elements_ c) (size_ c), w')).

(** The calls through [std::allocator_traits<Allocator>], each recorded
    in the trace. *)
Definition traits_allocate (n : N) : M CSt ptr :=
  let* p := on_alloc (alloc_allocate n) in
  in_world (log (EvAllocate n p)) ;;;
  ret p.

Definition traits_construct (p : ptr) (v : T) : M CSt unit :=
  in_world (log (EvConstruct p)) ;;;
  on_alloc (alloc_construct p v).

Definition traits_destroy (p : ptr) : M CSt unit :=
  in_world (log (EvDestroy p)) ;;;
  on_alloc (alloc_destroy p).

Definition traits_deallocate (p : ptr) (n : N) : M CSt unit :=
  in_world (log (EvDeallocate p n)) ;;;
  on_alloc (alloc_deallocate p n).

(** [MyContainer(const allocator_type& alloc = allocator_type())]: the
    allocator is copied into [alloc_]. *)
Definition MyContainer_ctor (alloc : A) : Cont := mkContainer alloc [] 0.

(** [void push_back(const T& value)] *)
Definition push_back (value : T) : M CSt unit :=
  let* p := traits_allocate 1 in
  traits_construct p value ;;;
  in_object (modify (λ c : Cont,
    mkContainer (alloc_ c) (elements_ c ++ [p]) (size_ c))) ;;;
  in_object (modify (λ c : Cont,
    mkContainer (alloc_ c) (elements_ c) ((size_ c + 1) mod size_t_modulus))).

(** The newline [std::endl] writes. *)
Definition endl : string := String "010"%char "".

(** [void print() const] *)
Definition print : M CSt unit :=
  let* s := get in
  for_each (λ p,
    let* v := in_world (deref p) in
    in_world (print_string (pretty v)) ;;;
    in_world (print_string " ")) (elements_ (fst s)) ;;;
  in_world (print_string endl).

(** [size_t size() const] and [bool empty() const] *)
Definition size : M CSt N := λ '(c, w), (Ok (size_ c), (c, w)).
Definition empty : M CSt bool := λ '(c, w), (Ok (size_ c =? 0), (c, w)).

(** [~MyContainer()] *)
Definition MyContainer_dtor : M CSt unit :=
  let* s := get in
  for_each (λ p, traits_destroy p ;;; traits_deallocate p 1)
           (elements_ (fst s)).
End MyContainer.

(** ** The demonstration code of [main] *)

Definition INT_MAX : Z := 2147483647.
Definition INT_MIN : Z := -2147483648.

(** Arithmetic on [int]: a result outside the range is undefined behaviour. *)
Definition int_checked (z : Z) : option Z :=
  if ((INT_MIN <=? z) && (z <=? INT_MAX))%Z then Some z else None.

(** [factorial], with the recursion depth as fuel; [None] is signed
    overflow.  [factorial_fuel_enough] shows that the fuel [factorial]
    passes is never exhausted. *)
Fixpoint factorial_rec (fuel : nat) (n : Z) : option (option Z) :=
  if (n <=? 1)%Z then Some (Some 1%Z)
  else match fuel with
       | O => None
       | S fuel' =>
           match factorial_rec fuel' (n - 1) with
           | Some (Some r) => Some (int_checked (n * r))
           | other => other
           end
       end.

Definition factorial (n : Z) : option Z :=
  match factorial_rec (Z.to_nat n) n with
  | Some r => r
  | None => None
  end.

(** [std::map<int, int, std::less<int>, Allocator>] of the standard library,
    as far as [main] uses it: the nodes in key order, each node allocated
    (count 1) and constructed through the map's allocator when its key is
    first used.  The object at a node's address is its (key, value) pair. *)
Record StdMap (A : Type) := mkMap {
  node_alloc : A;
  nodes : list (Z * ptr)
}.
Arguments mkMap {A}.
Arguments node_alloc {A}.
Arguments nodes {A}.

Section StdMap.
Context {A : Type} `{Allocator (Z * Z) A}.
Abbreviation MSt := (StdMap A * World (Z * Z))%type.

Definition on_node_alloc {X} (m : M (A * World (Z * Z)) X) : M MSt X :=
  λ '(m0, w), let '(r, (a', w')) := m (node_alloc m0, w) in
              (r, (mkMap a' (nodes m0), w')).

Fixpoint nodes_find (k : Z) (l : list (Z * ptr)) : option ptr :=
  match l with
  | [] => None
  | (k', p) :: l' => if (k =? k')%Z then Some p else nodes_find k l'
  end.

Fixpoint nodes_insert (k : Z) (p : ptr) (l : list (Z * ptr)) : list (Z * ptr) :=
  match l with
  | [] => [(k, p)]
  | (k', p') :: l' =>
      if (k <? k')%Z then (k, p) :: l else (k', p') :: nodes_insert k p l'
  end.

(** [m[k]]: the node of [k], created with a value-initialised [int] when
    the key is new. *)
Definition map_subscript (k : Z) : M MSt ptr :=
  let* s := get in
  match nodes_find k (nodes (fst s)) with
  | Some p => ret p
  | None =>
      let* p := on_node_alloc (alloc_allocate 1) in
      on_node_alloc (alloc_construct p (k, 0%Z)) ;;;
      in_object (modify (λ m0 : StdMap A,
        mkMap (node_alloc m0) (nodes_insert k p (nodes m0)))) ;;;
      ret p
  end.

(** [m[k] = v] *)
Definition map_assign (k v : Z) : M MSt unit :=
  let* p := map_subscript k in
  in_world (assign p (λ kv, (fst kv, v))).

(** [for (int i = 0; i < 10; ++i) m[i] = factorial(i);] *)
Definition fill_factorials : M MSt unit :=
  for_each (λ i,
    match factorial i with
    | Some v => map_assign i v
    | None => undefined
    end) (Z.of_nat <$> seq 0 10).

(** [for (const auto& [key, value] : m) std::cout << "Key: " << key
    << ", Value: " << value << std::endl;] *)
Definition print_map : M MSt unit :=
  let* s := get in
  for_each (λ kp : Z * ptr,
    let* kv := in_world (deref (snd kp)) in
    in_world (print_string "Key: ") ;;;
    in_world (print_string (pretty (fst kv))) ;;;
    in_world (print_string ", Value: ") ;;;
    in_world (print_string (pretty (snd kv))) ;;;
    in_world (print_string endl)) (nodes (fst s)).
End StdMap.

(** [sizeof(int)] and the size of a map node holding a [pair<const int, int>]
    (three pointers, a colour and the pair, on a 64-bit platform). *)
Global Instance sizeof_int : SizeOf Z := {| sizeof := 4 |}.
Global Instance sizeof_map_node : SizeOf (Z * Z) := {| sizeof := 40 |}.

(** Steps 3 to 5 of [main] for [map2]: the map's node allocator is
    [MyAllocator<node, 10>], obtained by the converting constructor from a
    default-constructed [MyAllocator<std::pair<const int, int>, 10>]. *)
Definition main_map2 : M (World (Z * Z)) unit :=
  λ w,
    let alloc : MyAllocator (Z * Z) 10 := MyAllocator_default in
    let map2 : StdMap (MyAllocator (Z * Z) 10) :=
      mkMap (MyAllocator_rebind alloc) [] in
    let '(r, (_, w')) :=
      (fill_factorials ;;;
       in_world (print_string "map2:") ;;;
       in_world (print_string endl) ;;;
       print_map) (map2, w) in
    (r, w').

(** [for (int i = 0; i < 10; ++i) container.push_back(i);] *)
Definition fill_container {A} `{Allocator Z A} : M (MyContainer Z A * World Z) unit :=
  for_each (λ i, push_back i) (Z.of_nat <$> seq 0 10).

(** ** Notions the properties are stated with *)

(** The addresses [b], [b + 1], ..., [b + k - 1]. *)
Definition blocks_from (b : N) (k : nat) : list N :=
  (λ i, b + N.of_nat i) <$> seq 0 k.

(** The world after [k] successful calls of [::operator new(bytes)]. *)
Fixpoint world_news {T} (bytes : N) (k : nat) (w : World T) : World T :=
  match k with
  | O => w
  | S k' => world_news bytes k' (world_new bytes w)
  end.

Definition is_expand (e : event) : bool :=
  match e with EvExpand => true | _ => false end.

Definition is_new (e : event) : bool :=
  match e with EvNew _ _ => true | _ => false end.

Definition is_call (e : event) : bool :=
  match e with
  | EvAllocate _ _ | EvConstruct _ | EvDestroy _ | EvDeallocate _ _ => true
  | _ => false
  end.

(** How often [expand()] was entered. *)
Definition expansions (t : list event) : nat := length (filter is_expand t).

(** How many blocks [::operator new] handed out. *)
Definition system_allocations (t : list event) : nat := length (filter is_new t).

(** The calls the container made through [std::allocator_traits]. *)
Definition calls (t : list event) : list event := filter is_call t.

Section Drivers.
Context {T : Type} `{SizeOf T} {BlockSize : N}.

(** Consecutive allocations with the counts [ns]. *)
Fixpoint allocations (ns : list N) : M (MyAllocator T BlockSize * World T) (list ptr) :=
  match ns with
  | [] => ret []
  | n :: ns' =>
      let* p := allocate n in
      let* ps := allocations ns' in
      ret (p :: ps)
  end.

(** [k] cycles of [p = allocate(n); deallocate(p, n)]. *)
Fixpoint reuse_cycles (n : N) (k : nat) : M (MyAllocator T BlockSize * World T) unit :=
  match k with
  | O => ret tt
  | S k' =>
      let* p := allocate n in
      deallocate p n ;;;
      reuse_cycles n k'
  end.
End Drivers.

(** The states a container can be in: constructed with some allocator, then
    used through its public member functions, in any world. *)
Inductive reachable {T A : Type} `{Allocator T A} `{Pretty T} :
    MyContainer T A → Prop :=
| reachable_ctor alloc :
    reachable (MyContainer_ctor alloc)
| reachable_push_back c w value r c' w' :
    reachable c → push_back value (c, w) = (r, (c', w')) → reachable c'
| reachable_print c w r c' w' :
    reachable c → print (c, w) = (r, (c', w')) → reachable c'
| reachable_size c w r c' w' :
    reachable c → size (c, w) = (r, (c', w')) → reachable c'
| reachable_empty c w r c' w' :
    reachable c → empty (c, w) = (r, (c', w')) → reachable c'.

(** A pool-backed container owns its blocks: the addresses it has recorded
    and the blocks in its allocator's pool are pairwise distinct live system
    blocks that [::operator new] has already handed out. *)
Definition owns {T BlockSize}
    (c : MyContainer T (MyAllocator T BlockSize)) (w : World T) : Prop :=
  NoDup (elements_ c ++ free_blocks (alloc_ c)) ∧
  ∀ p, p ∈ elements_ c ++ free_blocks (alloc_ c) →
       p < next_addr w ∧ is_Some (live w !! p).

(** The recorded addresses hold the values [vs], in order. *)
Definition holds {T A} (c : MyContainer T A) (w : World T) (vs : list T) : Prop :=
  Forall2 (λ p v, objs w !! p = Some v) (elements_ c) vs.

(** What teardown does with one recorded address. *)
Definition teardown_calls (ps : list ptr) : list event :=
  ps ≫= λ p, [EvDestroy p; EvDeallocate p 1].

(** A map's nodes hold the pairs [kvs], in key order. *)
Definition map_holds {A} (m : StdMap A) (w : World (Z * Z)) (kvs : list (Z * Z)) : Prop :=
  Forall2 (λ (kp : Z * ptr) kv, objs w !! kp.2 = Some kv) (nodes m) kvs.

(** The pieces [print_map] writes for one entry. *)
Definition map_line (kv : Z * Z) : list string :=
  ["Key: "; pretty kv.1; ", Value: "; pretty kv.2; endl].

(** The keys 0 to 9 with their factorials. *)
Definition factorial_table : list (Z * Z) :=
  [(0, 1); (1, 1); (2, 2); (3, 6); (4, 24); (5, 120); (6, 720); (7, 5040);
   (8, 40320); (9, 362880)]%Z.

(** A small world for examples: nothing allocated yet, addresses from 1,
    1024 bytes available. *)
Definition small_world {T} : World T := mkWorld 1 1024 ∅ ∅ [] [].

(** The container that [push_back(7)] leaves behind in [small_world] when it
    runs on a fresh [MyContainer<int, MyAllocator<int, 3>>]. *)
Definition small_container : MyContainer Z (MyAllocator Z 3) :=
  mkContainer (mkAlloc [1; 2]) [3] 1.

(** ** Notions the further properties are stated with *)

Definition is_delete (e : event) : bool :=
  match e with EvDelete _ => true | _ => false end.

(** How many blocks were given back through [::operator delete]. *)
Definition system_releases (t : list event) : nat := length (filter is_delete t).

(** A call of one of the two allocation members of an allocator. *)
Inductive pool_call :=
| CallAllocate (n : N)
| CallDeallocate (p : ptr) (n : N).

Definition call_count (c : pool_call) : N :=
  match c with
  | CallAllocate n => n
  | CallDeallocate _ n => n
  end.

Definition run_call {T} `{SizeOf T} {BlockSize : N} (c : pool_call) :
    M (MyAllocator T BlockSize * World T) unit :=
  match c with
  | CallAllocate n => allocate n ;;; ret tt
  | CallDeallocate p n => deallocate p n
  end.

(** The system heap has handed out every address that is live. *)
Definition heap_ok {T} (w : World T) : Prop :=
  ∀ p, is_Some (live w !! p) → p < next_addr w.

(** The product [1 * 2 * ... * n]. *)
Definition product_upto (n : nat) : Z := foldr Z.mul 1%Z (Z.of_nat <$> seq 1 n).

(** A world with room for two [int]s and a bit: 9 bytes. *)
Definition tight_world {T} : World T := mkWorld 1 9 ∅ ∅ [] [].

(** * Properties *)

(** ** Loops *)

Lemma for_each_cons {S X} (f : X → M S unit) x l :
  for_each f (x :: l) = (f x ;;; for_each f l).
Proof. done. Qed.

(** ** The system allocator *)

Lemma blocks_from_length b k : length (blocks_from b k) = k.
Proof. unfold blocks_from. by rewrite length_fmap, length_seq. Qed.

Lemma blocks_from_S b k : blocks_from b (S k) = b :: blocks_from (N.succ b) k.
Proof.
  unfold blocks_from. simpl. f_equal; [lia|].
  rewrite <- fmap_S_seq, <- list_fmap_compose.
  apply list_fmap_ext. intros _ i _. simpl. lia.
Qed.

Lemma blocks_from_snoc b k :
  blocks_from b (S k) = blocks_from b k ++ [b + N.of_nat k].
Proof. unfold blocks_from. by rewrite seq_S, fmap_app. Qed.

Lemma blocks_from_elem b k p :
  p ∈ blocks_from b k ↔ b ≤ p ∧ p < b + N.of_nat k.
Proof.
  unfold blocks_from. rewrite list_elem_of_fmap. split.
  - intros (i & -> & Hi). apply elem_of_seq in Hi. lia.
  - intros [Hb Hp]. exists (N.to_nat (p - b)). split; [lia|].
    apply elem_of_seq. lia.
Qed.

Lemma blocks_from_NoDup b k : NoDup (blocks_from b k).
Proof.
  revert b. induction k as [|k IH]; intros b; [constructor|].
  rewrite blocks_from_S. constructor; [|apply IH].
  rewrite blocks_from_elem. lia.
Qed.

Section WorldFacts.
Context {T : Type}.
Implicit Types w : World T.

Lemma world_news_next_addr bytes k w :
  next_addr (world_news bytes k w) = next_addr w + N.of_nat k.
Proof.
  revert w. induction k as [|k IH]; intros w; simpl; [lia|].
  rewrite IH. simpl. lia.
Qed.

Lemma world_news_room bytes k w :
  room (world_news bytes k w) = room w - N.of_nat k * bytes.
Proof.
  revert w. induction k as [|k IH]; intros w; simpl; [lia|].
  rewrite IH. simpl. lia.
Qed.

Lemma world_news_objs bytes k w : objs (world_news bytes k w) = objs w.
Proof. revert w. induction k as [|k IH]; intros w; simpl; [done|]. by rewrite IH. Qed.

Lemma world_news_cout bytes k w : cout (world_news bytes k w) = cout w.
Proof. revert w. induction k as [|k IH]; intros w; simpl; [done|]. by rewrite IH. Qed.

Lemma world_news_trace bytes k w :
  trace (world_news bytes k w)
  = trace w ++ (EvNew bytes <$> blocks_from (next_addr w) k).
Proof.
  revert w. induction k as [|k IH]; intros w.
  - simpl. by rewrite app_nil_r.
  - simpl world_news. rewrite IH, blocks_from_S. simpl.
    by rewrite <- app_assoc.
Qed.

Lemma world_news_live_below bytes k w p :
  p < next_addr w → live (world_news bytes k w) !! p = live w !! p.
Proof.
  revert w. induction k as [|k IH]; intros w Hp; [done|].
  simpl world_news. rewrite IH by (simpl; lia).
  simpl. rewrite lookup_insert_ne; [done|lia].
Qed.

Lemma world_news_live_new bytes k w p :
  p ∈ blocks_from (next_addr w) k →
  live (world_news bytes k w) !! p = Some bytes.
Proof.
  revert w. induction k as [|k IH]; intros w Hp.
  - by apply elem_of_nil in Hp.
  - simpl world_news. rewrite blocks_from_S in Hp.
    apply elem_of_cons in Hp as [->|Hp].
    + rewrite world_news_live_below by (simpl; lia).
      apply lookup_insert_eq.
    + by apply IH.
Qed.

Lemma world_news_live_old bytes k w p :
  p ∉ blocks_from (next_addr w) k →
  live (world_news bytes k w) !! p = live w !! p.
Proof.
  revert w. induction k as [|k IH]; intros w Hp; [done|].
  simpl world_news. rewrite blocks_from_S in Hp.
  apply not_elem_of_cons in Hp as [Hne Hp].
  rewrite IH by done. simpl. by rewrite lookup_insert_ne.
Qed.

Lemma operator_new_ok bytes w :
  bytes ≤ room w →
  operator_new bytes w = (Ok (next_addr w), world_new bytes w).
Proof. intros Hr. unfold operator_new. by rewrite (proj2 (N.leb_le _ _) Hr). Qed.

Lemma operator_new_throw bytes w :
  room w < bytes → operator_new bytes w = (Throw bad_alloc, w).
Proof. intros Hr. unfold operator_new. by rewrite (proj2 (N.leb_gt _ _) Hr). Qed.
End WorldFacts.

(** ** The pool *)

Section AllocatorFacts.
Context {T : Type} `{SizeOf T} {BlockSize : N}.
Implicit Types (a : MyAllocator T BlockSize) (w : World T).

Lemma alloc_eta a : mkAlloc (free_blocks a) = a.
Proof. by destruct a. Qed.

Lemma allocate_bypass n a w :
  BlockSize < n →
  allocate n (a, w)
  = in_world (operator_new ((n * sizeof) mod size_t_modulus)) (a, w).
Proof. intros Hn. unfold allocate. by rewrite (proj2 (N.ltb_lt _ _) Hn). Qed.

Lemma deallocate_bypass p n a w :
  BlockSize < n →
  deallocate p n (a, w) = in_world (operator_delete p) (a, w).
Proof. intros Hn. unfold deallocate. by rewrite (proj2 (N.ltb_lt _ _) Hn). Qed.

Lemma deallocate_pool p n a w :
  n ≤ BlockSize →
  deallocate p n (a, w) = (Ok tt, (mkAlloc (free_blocks a ++ [p]), w)).
Proof. intros Hn. unfold deallocate. by rewrite (proj2 (N.ltb_ge _ _) Hn). Qed.

Lemma take_back_snoc fb p w :
  free_blocks_take_back (mkAlloc (BlockSize:=BlockSize) (T:=T) (fb ++ [p]), w)
  = (Ok p, (mkAlloc fb, w)).
Proof.
  unfold free_blocks_take_back. simpl.
  by rewrite last_snoc, removelast_last.
Qed.

Lemma allocate_pool_nonempty n a w fb p :
  n ≤ BlockSize → free_blocks a = fb ++ [p] →
  allocate n (a, w) = (Ok p, (mkAlloc fb, w)).
Proof.
  intros Hn Hfb. unfold allocate. rewrite (proj2 (N.ltb_ge _ _) Hn).
  unfold bind, free_blocks_empty. rewrite bool_decide_eq_false_2.
  - destruct a as [l]. simpl in Hfb. subst l. apply take_back_snoc.
  - rewrite Hfb. by destruct fb.
Qed.

Lemma allocate_pool_empty n a w :
  n ≤ BlockSize → free_blocks a = [] →
  allocate n (a, w) = (expand ;;; free_blocks_take_back) (a, w).
Proof.
  intros Hn Hfb. unfold allocate. rewrite (proj2 (N.ltb_ge _ _) Hn).
  unfold bind, free_blocks_empty. by rewrite bool_decide_eq_true_2.
Qed.

Lemma allocate_count_irrelevant n m a w :
  n ≤ BlockSize → m ≤ BlockSize → allocate n (a, w) = allocate m (a, w).
Proof.
  intros Hn Hm. unfold allocate.
  by rewrite (proj2 (N.ltb_ge _ _) Hn), (proj2 (N.ltb_ge _ _) Hm).
Qed.

(** The loop of [expand()] makes [j] of its [k] system allocations and
    pushes each block; it completes exactly when all succeed. *)
Lemma expand_loop_spec k a w :
  ∃ j, (j ≤ k)%nat ∧
    expand_loop k (a, w)
    = ((if decide (j = k) then Ok tt else Throw bad_alloc),
       (mkAlloc (free_blocks a ++ blocks_from (next_addr w) j),
        world_news sizeof j w)) ∧
    (N.of_nat k * sizeof ≤ room w → j = k).
Proof.
  revert a w. induction k as [|k IH]; intros a w.
  - exists 0%nat. split; [lia|]. split; [|done].
    simpl. unfold ret. by rewrite app_nil_r, alloc_eta.
  - destruct (N.leb_spec sizeof (room w)) as [Hr|Hr].
    + destruct (IH (mkAlloc (free_blocks a ++ [next_addr w]))
                   (world_new sizeof w)) as (j & Hj & Heq & Hall).
      exists (S j). split; [lia|]. split.
      * simpl expand_loop. unfold bind at 1, in_world.
        rewrite (operator_new_ok _ _ Hr).
        unfold bind at 1, free_blocks_push_back, in_object, modify.
        rewrite Heq. simpl. rewrite blocks_from_S, <- app_assoc. simpl.
        repeat case_decide; try done; lia.
      * intros Hroom. f_equal. apply Hall. simpl. lia.
    + exists 0%nat. split; [lia|]. split; [|lia].
      simpl expand_loop. unfold bind at 1, in_world.
      rewrite (operator_new_throw _ _ Hr). simpl.
      by rewrite app_nil_r, alloc_eta.
Qed.

Lemma expand_spec a w :
  ∃ j, (j ≤ N.to_nat BlockSize)%nat ∧
    expand (a, w)
    = ((if decide (j = N.to_nat BlockSize) then Ok tt else Throw bad_alloc),
       (mkAlloc (free_blocks a ++ blocks_from (next_addr w) j),
        world_news sizeof j (world_log EvExpand w))) ∧
    (BlockSize * sizeof ≤ room w → j = N.to_nat BlockSize).
Proof.
  destruct (expand_loop_spec (N.to_nat BlockSize) a (world_log EvExpand w))
    as (j & Hj & Heq & Hall).
  exists j. split; [done|]. split.
  - unfold expand, bind, in_world, log, modify. by rewrite Heq.
  - intros Hr. apply Hall. simpl. lia.
Qed.
End AllocatorFacts.

(** ** Counting events *)

Lemma expansions_app t1 t2 :
  expansions (t1 ++ t2) = (expansions t1 + expansions t2)%nat.
Proof. unfold expansions. by rewrite filter_app, length_app. Qed.

Lemma expansions_news bytes ps : expansions (EvNew bytes <$> ps) = 0%nat.
Proof. induction ps as [|p ps IH]; [done|]. simpl. apply IH. Qed.

Lemma system_allocations_app t1 t2 :
  system_allocations (t1 ++ t2)
  = (system_allocations t1 + system_allocations t2)%nat.
Proof. unfold system_allocations. by rewrite filter_app, length_app. Qed.

Lemma system_allocations_news bytes ps :
  system_allocations (EvNew bytes <$> ps) = length ps.
Proof.
  induction ps as [|p ps IH]; [done|].
  unfold system_allocations in *. simpl. f_equal. exact IH.
Qed.

Lemma calls_app t1 t2 : calls (t1 ++ t2) = calls t1 ++ calls t2.
Proof. apply filter_app. Qed.

Lemma calls_news bytes ps : calls (EvNew bytes <$> ps) = [].
Proof. induction ps as [|p ps IH]; [done|]. simpl. apply IH. Qed.

(** ** Allocating from the pool *)

Section PoolFacts.
Context {T : Type} `{SizeOf T} {BlockSize : N}.
Implicit Types (a : MyAllocator T BlockSize) (w : World T).

(** An allocation that finds the pool empty and memory for a whole batch:
    the batch is appended and its last block is handed out. *)
Lemma allocate_fresh_ok n a w :
  n ≤ BlockSize → 1 ≤ BlockSize → free_blocks a = [] →
  BlockSize * sizeof ≤ room w →
  allocate n (a, w)
  = (Ok (next_addr w + BlockSize - 1),
     (mkAlloc (blocks_from (next_addr w) (N.to_nat BlockSize - 1)),
      world_news sizeof (N.to_nat BlockSize) (world_log EvExpand w))).
Proof.
  intros Hn Hpos Hfb Hroom. rewrite allocate_pool_empty by done.
  destruct (expand_spec a w) as (j & _ & Heq & Hall).
  specialize (Hall Hroom). subst j.
  unfold bind. rewrite Heq, decide_True by done.
  rewrite Hfb. simpl app.
  destruct (N.to_nat BlockSize) as [|k] eqn:Hk; [lia|].
  rewrite blocks_from_snoc, take_back_snoc. simpl next_addr.
  repeat f_equal; lia.
Qed.

(** Allocations that find enough blocks in the pool take them from its
    back, one each, and leave the world as it is. *)
Lemma allocations_pool ns a w :
  Forall (λ n, n ≤ BlockSize) ns →
  (length ns ≤ length (free_blocks a))%nat →
  ∃ ps a', allocations ns (a, w) = (Ok ps, (a', w)) ∧
           free_blocks a = free_blocks a' ++ rev ps ∧
           length ps = length ns.
Proof.
  intros Hns. revert a. induction Hns as [|n ns Hn Hns IH]; intros a Hlen.
  - exists [], a. simpl. by rewrite app_nil_r.
  - destruct a as [l]. simpl in Hlen.
    destruct l as [|q l _] using rev_ind; [simpl in Hlen; lia|].
    rewrite length_app in Hlen. simpl in Hlen.
    destruct (IH (mkAlloc l)) as (ps & a' & Heq & Hfb & Hlen'); [simpl; lia|].
    exists (q :: ps), a'. split; [|split].
    + simpl allocations. unfold bind at 1.
      rewrite (allocate_pool_nonempty n _ w l q) by done.
      unfold bind at 1. by rewrite Heq.
    + simpl in *. rewrite Hfb. by rewrite app_assoc.
    + simpl. by rewrite Hlen'.
Qed.

Lemma allocate_nonempty_expansions n a w :
  free_blocks a ≠ [] →
  expansions (trace (snd (snd (allocate n (a, w))))) = expansions (trace w).
Proof.
  intros Hne. destruct (N.lt_ge_cases BlockSize n) as [Hn|Hn].
  - rewrite allocate_bypass by done. unfold in_world, operator_new.
    destruct (_ <=? _); simpl; [|done].
    unfold expansions. rewrite filter_app, length_app. simpl. lia.
  - destruct a as [l]. simpl in Hne.
    destruct l as [|q l _] using rev_ind; [done|].
    by rewrite (allocate_pool_nonempty n _ w l q).
Qed.

Lemma deallocate_expansions p n a w :
  expansions (trace (snd (snd (deallocate p n (a, w))))) = expansions (trace w).
Proof.
  destruct (N.lt_ge_cases BlockSize n) as [Hn|Hn].
  - rewrite deallocate_bypass by done. unfold in_world, operator_delete.
    destruct (live w !! p); simpl; [|done].
    unfold expansions. rewrite filter_app, length_app. simpl. lia.
  - by rewrite deallocate_pool.
Qed.

(** A cycle on a pool that holds a block changes nothing. *)
Lemma reuse_cycles_nonempty n k a w :
  n ≤ BlockSize → free_blocks a ≠ [] →
  reuse_cycles n k (a, w) = (Ok tt, (a, w)).
Proof.
  intros Hn Hne. induction k as [|k IH]; [done|].
  destruct a as [l]. simpl in Hne.
  destruct l as [|q l _] using rev_ind; [done|].
  simpl reuse_cycles. unfold bind at 1.
  rewrite (allocate_pool_nonempty n _ w l q) by done.
  unfold bind at 1. rewrite deallocate_pool by done. simpl free_blocks.
  apply IH.
Qed.
End PoolFacts.

(** ** The allocator's testable properties *)

Section AllocatorProperties.
Context {T : Type} `{SizeOf T} {BlockSize : N}.
Implicit Types (a : MyAllocator T BlockSize) (w : World T).

(** C1 (batch growth).  A pool allocation ([n ≤ BlockSize]) that finds
    [free_blocks] empty, with memory for a batch available, enters
    [expand()] exactly once; the expansion appends exactly [BlockSize] new
    blocks of [sizeof(T)] bytes each to [free_blocks]; the following
    [BlockSize - 1] pool allocations succeed without touching the world,
    hence without expansion.  An allocation that finds [free_blocks]
    non-empty never enters [expand()], and neither does [deallocate]. *)
Theorem batch_growth n a w :
  n ≤ BlockSize → free_blocks a = [] → BlockSize * sizeof ≤ room w →
  let batch := blocks_from (next_addr w) (N.to_nat BlockSize) in
  let w1 := world_news sizeof (N.to_nat BlockSize) (world_log EvExpand w) in
  expand (a, w) = (Ok tt, (mkAlloc (free_blocks a ++ batch), w1)) ∧
  length batch = N.to_nat BlockSize ∧
  trace w1 = trace w ++ EvExpand :: (EvNew sizeof <$> batch) ∧
  (∃ r a1, allocate n (a, w) = (r, (a1, w1)) ∧
     expansions (trace w1) = S (expansions (trace w)) ∧
     ∀ ns, Forall (λ m, m ≤ BlockSize) ns →
           (length ns ≤ N.to_nat BlockSize - 1)%nat →
           ∃ ps a2, allocations ns (a1, w1) = (Ok ps, (a2, w1))) ∧
  (∀ m a' w', free_blocks a' ≠ [] →
     expansions (trace (snd (snd (allocate m (a', w')))))
     = expansions (trace w')) ∧
  (∀ p m a' w',
     expansions (trace (snd (snd (deallocate p m (a', w')))))
     = expansions (trace w')).
Proof.
  intros Hn Hfb Hroom batch w1.
  destruct (expand_spec a w) as (j & _ & Hexp & Hall).
  specialize (Hall Hroom). subst j. rewrite decide_True in Hexp by done.
  assert (Htrace : trace w1 = trace w ++ EvExpand :: (EvNew sizeof <$> batch)).
  { unfold w1. rewrite world_news_trace. simpl. by rewrite <- app_assoc. }
  split; [exact Hexp|]. split; [apply blocks_from_length|].
  split; [exact Htrace|].
  split; [|split; intros; [by apply allocate_nonempty_expansions
                          |apply deallocate_expansions]].
  assert (Hcount : expansions (trace w1) = S (expansions (trace w))).
  { rewrite Htrace, expansions_app.
    change (EvExpand :: (EvNew sizeof <$> batch))
      with ([EvExpand] ++ (EvNew sizeof <$> batch)).
    rewrite expansions_app, expansions_news. unfold expansions at 2. simpl. lia. }
  destruct (N.to_nat BlockSize) as [|k] eqn:Hk.
  - exists UB, a. split; [|split; [done|]].
    + rewrite allocate_pool_empty by done. unfold bind.
      rewrite Hexp, Hfb. fold w1. simpl.
      destruct a as [l]. simpl in Hfb. by subst l.
    + intros ns _ Hlen. destruct ns; [|simpl in Hlen; lia].
      by exists [], a.
  - exists (Ok (next_addr w + BlockSize - 1)),
           (mkAlloc (blocks_from (next_addr w) (N.to_nat BlockSize - 1))).
    split; [|split; [done|]].
    + rewrite allocate_fresh_ok by (done || lia). unfold w1. by rewrite Hk.
    + intros ns Hns Hlen.
      destruct (allocations_pool ns
        (mkAlloc (blocks_from (next_addr w) (N.to_nat BlockSize - 1))) w1 Hns)
        as (ps & a2 & Heq & _).
      * simpl. rewrite blocks_from_length. lia.
      * by exists ps, a2.
Qed.

(** C2 (stack discipline).  On the pool path ([n], [m ≤ BlockSize]) an
    allocation removes and returns the last entry of [free_blocks], so
    that in every state [deallocate(p, n)] followed by [allocate(m)]
    returns exactly [p] and restores the state.  With [n = m = 1] this is
    the pool path whenever [1 ≤ BlockSize]. *)
Theorem pool_is_lifo n m p a w :
  n ≤ BlockSize → m ≤ BlockSize →
  (∀ fb q, free_blocks a = fb ++ [q] →
     allocate m (a, w) = (Ok q, (mkAlloc fb, w))) ∧
  (deallocate p n ;;; allocate m) (a, w) = (Ok p, (a, w)).
Proof.
  intros Hn Hm. split.
  - intros fb q Hfb. by apply allocate_pool_nonempty.
  - unfold bind. rewrite deallocate_pool by done.
    rewrite (allocate_pool_nonempty m _ w (free_blocks a) p) by done.
    by rewrite alloc_eta.
Qed.

(** C3 (bypass isolation).  With [n > BlockSize], [allocate(n)] is
    [::operator new(n * sizeof(T))] and [deallocate(p, n)] is
    [::operator delete(p)]; whatever their outcome, the allocator object,
    and with it [free_blocks], is left as it was. *)
Theorem bypass_isolation n p a w :
  BlockSize < n →
  allocate n (a, w)
  = (let '(r, w') := operator_new ((n * sizeof) mod size_t_modulus) w in
     (r, (a, w'))) ∧
  deallocate p n (a, w)
  = (let '(r, w') := operator_delete p w in (r, (a, w'))) ∧
  free_blocks (fst (snd (allocate n (a, w)))) = free_blocks a ∧
  free_blocks (fst (snd (deallocate p n (a, w)))) = free_blocks a.
Proof.
  intros Hn. rewrite allocate_bypass, deallocate_bypass by done.
  unfold in_world. repeat split.
  - by destruct (operator_new _ w).
  - by destruct (operator_delete p w).
Qed.

(** C4, as amended (pool reuse bound).  When [1 ≤ BlockSize], any number
    [k] of cycles [p = allocate(1); deallocate(p, 1)] on a fresh
    allocator makes at most [BlockSize] system allocations, never runs
    into undefined behaviour, and completes when memory for one batch is
    available. *)
Theorem pool_reuse_bound k w :
  1 ≤ BlockSize →
  let '(r, (_, w')) :=
    reuse_cycles 1 k (MyAllocator_default : MyAllocator T BlockSize, w) in
  r ≠ UB ∧
  (system_allocations (trace w')
   ≤ system_allocations (trace w) + N.to_nat BlockSize)%nat ∧
  (BlockSize * sizeof ≤ room w → r = Ok tt).
Proof.
  intros Hpos. destruct k as [|k].
  { simpl. repeat split; [done|lia]. }
  simpl reuse_cycles. unfold bind at 1.
  rewrite allocate_pool_empty by done. unfold bind at 1.
  destruct (expand_spec (MyAllocator_default : MyAllocator T BlockSize) w)
    as (j & Hj & Hexp & Hall).
  rewrite Hexp. simpl free_blocks. simpl app.
  assert (Hcount : (system_allocations
            (trace (world_news sizeof j (world_log EvExpand w)))
          ≤ system_allocations (trace w) + N.to_nat BlockSize)%nat).
  { rewrite world_news_trace. simpl. rewrite <- app_assoc.
    rewrite system_allocations_app. simpl app.
    change (EvExpand :: ?l) with ([EvExpand] ++ l).
    rewrite system_allocations_app, system_allocations_news.
    rewrite blocks_from_length. unfold system_allocations at 2. simpl. lia. }
  case_decide as Hjk.
  - subst j. destruct (N.to_nat BlockSize) as [|b] eqn:Hb; [lia|].
    rewrite blocks_from_snoc, take_back_snoc.
    unfold bind at 1. rewrite deallocate_pool by done. simpl free_blocks.
    rewrite reuse_cycles_nonempty; [|done|by destruct (blocks_from _ b)].
    repeat split; done.
  - repeat split; [done|done|]. intros Hr. by specialize (Hall Hr).
Qed.

(** C10, as amended (one block whatever the count).  Every count
    [n ≤ BlockSize], zero and the counts from 2 on included, takes the pool
    path: the outcome does not depend on [n].  From a non-empty pool the
    allocation removes and returns exactly its last entry.  From an empty
    pool with [1 ≤ BlockSize] (and memory for a batch) it returns the last
    block of the new batch, a block of [sizeof(T)] bytes, and keeps the
    other [BlockSize - 1].  The case the amendment excludes is an empty
    pool with [BlockSize = 0]: [expand()] adds nothing, [back()] is called
    on an empty vector, and no block is returned. *)
Theorem pool_allocation_one_block n a w :
  n ≤ BlockSize →
  (∀ m, m ≤ BlockSize → allocate n (a, w) = allocate m (a, w)) ∧
  (∀ fb p, free_blocks a = fb ++ [p] →
     allocate n (a, w) = (Ok p, (mkAlloc fb, w))) ∧
  (free_blocks a = [] → 1 ≤ BlockSize → BlockSize * sizeof ≤ room w →
     let p := next_addr w + BlockSize - 1 in
     let w1 := world_news sizeof (N.to_nat BlockSize) (world_log EvExpand w) in
     allocate n (a, w)
     = (Ok p, (mkAlloc (blocks_from (next_addr w) (N.to_nat BlockSize - 1)), w1)) ∧
     live w1 !! p = Some sizeof) ∧
  (free_blocks a = [] → BlockSize = 0 →
     allocate n (a, w) = (UB, (a, world_log EvExpand w))).
Proof.
  intros Hn. split; [|split; [|split]].
  - intros m Hm. by apply allocate_count_irrelevant.
  - intros fb p Hfb. by apply allocate_pool_nonempty.
  - intros Hfb Hpos Hroom p w1. split; [by apply allocate_fresh_ok|].
    apply world_news_live_new. simpl. apply blocks_from_elem. lia.
  - intros Hfb Hzero. rewrite allocate_pool_empty by done.
    destruct (expand_spec a w) as (j & Hj & Hexp & _).
    unfold bind. rewrite Hexp.
    assert (j = 0%nat) as -> by lia.
    case_decide; [|lia].
    destruct a as [l]. simpl in Hfb. subst l. done.
Qed.
End AllocatorProperties.

(** C9 (compatibility is unconditional).  Two allocators of one batch size,
    of whatever element types and with whatever pools, compare equal. *)
Theorem allocators_always_equal (T U : Type) (BlockSize : N)
    (a : MyAllocator T BlockSize) (b : MyAllocator U BlockSize) :
  operator_eq a b = true ∧ operator_ne a b = false.
Proof. done. Qed.

(** ** The container's bookkeeping *)

Section ContainerFacts.
Context {T A : Type} `{Allocator T A} `{Pretty T}.
Implicit Types (c : MyContainer T A) (w : World T).

Lemma on_alloc_frame {X} (m : M (A * World T) X) c w :
  elements_ (fst (snd (on_alloc m (c, w)))) = elements_ c ∧
  size_ (fst (snd (on_alloc m (c, w)))) = size_ c.
Proof. unfold on_alloc. by destruct (m (alloc_ c, w)) as [r [a' w']]. Qed.

(** [push_back] either completes, with one more address recorded and the
    count one up, or fails and leaves addresses and count as they were. *)
Lemma push_back_bookkeeping value c w :
  let '(r, (c', _)) := push_back value (c, w) in
  (r = Ok tt ∧ (∃ p, elements_ c' = elements_ c ++ [p]) ∧
   size_ c' = (size_ c + 1) mod size_t_modulus) ∨
  (r ≠ Ok tt ∧ elements_ c' = elements_ c ∧ size_ c' = size_ c).
Proof.
  unfold push_back, traits_allocate, traits_construct, bind, on_alloc,
    in_world, in_object, log, modify, ret.
  destruct (alloc_allocate 1 (alloc_ c, w)) as [[p|e|] [a1 w1]]; simpl;
    [|by right..].
  destruct (alloc_construct p value (a1, world_log (EvConstruct p)
              (world_log (EvAllocate 1 p) w1))) as [[[]|e|] [a2 w2]]; simpl;
    [|by right..].
  left. eauto.
Qed.

Lemma for_each_object_frame {S O X} (f : X → M (O * S) unit) (l : list X) :
  (∀ x o s, fst (snd (f x (o, s))) = o) →
  ∀ o s, fst (snd (for_each f l (o, s))) = o.
Proof.
  intros Hf. induction l as [|x l IH]; intros o s; [done|].
  simpl. unfold bind. specialize (Hf x o s).
  destruct (f x (o, s)) as [[[]|e|] [o' s']]; simpl in *; subst; [apply IH|done..].
Qed.

Lemma print_frame c w : fst (snd (print (c, w))) = c.
Proof.
  unfold print, bind, get. simpl.
  match goal with
  | |- context [for_each ?f ?l _] =>
      pose proof (for_each_object_frame f l) as Hloop
  end.
  specialize (Hloop ltac:(intros x o s; unfold bind, in_world, deref;
                          simpl; by destruct (objs s !! x)) c w).
  destruct (for_each _ (elements_ c) (c, w)) as [[[]|e|] [c' w']];
    simpl in *; by subst.
Qed.

Lemma reachable_count c :
  reachable c →
  size_ c = N.of_nat (length (elements_ c)) mod size_t_modulus.
Proof.
  induction 1 as [alloc|c w value r c' w' _ IH Hpush|c w r c' w' _ IH Hp
                 |c w r c' w' _ IH Hs|c w r c' w' _ IH He].
  - done.
  - pose proof (push_back_bookkeeping value c w) as Hb. rewrite Hpush in Hb.
    destruct Hb as [(_ & [p Hel] & Hsz)|(_ & Hel & Hsz)].
    + rewrite Hsz, Hel, IH, length_app. simpl.
      rewrite N.Div0.add_mod_idemp_l. f_equal. lia.
    + by rewrite Hsz, Hel.
  - pose proof (print_frame c w) as Hf. rewrite Hp in Hf. simpl in Hf. by subst.
  - unfold size in Hs. by simplify_eq.
  - unfold empty in He. by simplify_eq.
Qed.

(** C5 (bookkeeping invariant).  In every reachable container state the
    stored count is the length of the address sequence (a vector of
    pointers holds fewer than [2^64] entries); [size()] returns the
    count, [empty()] returns [true] exactly when the count is zero, and
    neither changes the container or the world. *)
Theorem container_bookkeeping c w :
  reachable c →
  N.of_nat (length (elements_ c)) < size_t_modulus →
  N.of_nat (length (elements_ c)) = size_ c ∧
  size (c, w) = (Ok (size_ c), (c, w)) ∧
  ∃ b, empty (c, w) = (Ok b, (c, w)) ∧ (b = true ↔ size_ c = 0).
Proof.
  intros Hreach Hlen. split; [|split].
  - rewrite (reachable_count c Hreach). by rewrite N.mod_small.
  - done.
  - exists (size_ c =? 0). split; [done|]. apply N.eqb_eq.
Qed.
End ContainerFacts.

(** ** A container on the pool allocator *)

Lemma Forall2_impl_elem {X Y} (P Q : X → Y → Prop) (l : list X) (k : list Y) :
  Forall2 P l k → (∀ x y, x ∈ l → P x y → Q x y) → Forall2 Q l k.
Proof.
  induction 1 as [|x y l k HP _ IH]; intros Himp; constructor.
  - apply Himp; [left|done].
  - apply IH. intros x' y' Hin. apply Himp. by right.
Qed.

Section PoolContainerFacts.
Context {T : Type} `{SizeOf T} `{Pretty T} {BlockSize : N}.
Implicit Types (a : MyAllocator T BlockSize) (w : World T)
               (c : MyContainer T (MyAllocator T BlockSize)).

(** What a successful [allocate] does, whichever path it takes: [k] new
    system blocks appear ([k] is 0, 1 or [BlockSize]), and the block
    handed out is the last of the pool extended by them. *)
Lemma allocate_ok_inv n a w p a' w' :
  allocate n (a, w) = (Ok p, (a', w')) →
  ∃ k, free_blocks a ++ blocks_from (next_addr w) k = free_blocks a' ++ [p] ∧
       next_addr w' = next_addr w + N.of_nat k ∧
       objs w' = objs w ∧ cout w' = cout w ∧
       calls (trace w') = calls (trace w) ∧
       (∀ q, q < next_addr w → live w' !! q = live w !! q) ∧
       (∀ q, q ∈ blocks_from (next_addr w) k → is_Some (live w' !! q)).
Proof.
  intros Halloc. destruct (N.lt_ge_cases BlockSize n) as [Hn|Hn].
  - rewrite allocate_bypass in Halloc by done.
    unfold in_world, operator_new in Halloc.
    destruct (_ <=? _); [|done]. simplify_eq.
    exists 1%nat. rewrite blocks_from_S. simpl.
    split_and!; try done.
    + lia.
    + by rewrite calls_app, app_nil_r.
    + intros q Hq. rewrite lookup_insert_ne; [done|lia].
    + intros q ->%list_elem_of_singleton. rewrite lookup_insert_eq. eauto.
  - destruct a as [l]. destruct l as [|q l _] using rev_ind.
    + rewrite allocate_pool_empty in Halloc by done.
      destruct (expand_spec (mkAlloc (BlockSize:=BlockSize) (T:=T) []) w)
        as (j & _ & Hexp & _).
      unfold bind in Halloc. rewrite Hexp in Halloc.
      case_decide as Hj; [|done]. subst j. simpl app in Halloc.
      destruct (N.to_nat BlockSize) as [|k] eqn:Hk; [done|].
      rewrite blocks_from_snoc, take_back_snoc in Halloc. simplify_eq.
      exists (S k). simpl free_blocks.
      rewrite world_news_next_addr, world_news_objs, world_news_cout,
        world_news_trace.
      split_and!; try done.
      * by rewrite blocks_from_snoc.
      * change (trace (world_log EvExpand w)) with (trace w ++ [EvExpand]).
        rewrite !calls_app, calls_news.
        change (calls [EvExpand]) with (@nil event). by rewrite !app_nil_r.
      * intros q Hq. by rewrite world_news_live_below.
      * intros q Hq. rewrite (world_news_live_new sizeof (S k)); eauto.
    + rewrite (allocate_pool_nonempty n _ w l q) in Halloc by done.
      simplify_eq. exists 0%nat. simpl. rewrite app_nil_r.
      split_and!; try done; [lia|].
      intros q' Hq'. by apply elem_of_nil in Hq'.
Qed.

(** What a successful [push_back] does. *)
Lemma push_back_ok_inv value c w c' w' :
  push_back value (c, w) = (Ok tt, (c', w')) →
  ∃ p k,
    elements_ c' = elements_ c ++ [p] ∧
    size_ c' = (size_ c + 1) mod size_t_modulus ∧
    free_blocks (alloc_ c) ++ blocks_from (next_addr w) k
    = free_blocks (alloc_ c') ++ [p] ∧
    next_addr w' = next_addr w + N.of_nat k ∧
    objs w' = <[p := value]> (objs w) ∧ cout w' = cout w ∧
    calls (trace w') = calls (trace w) ++ [EvAllocate 1 p; EvConstruct p] ∧
    (∀ q, q < next_addr w → live w' !! q = live w !! q) ∧
    (∀ q, q ∈ blocks_from (next_addr w) k → is_Some (live w' !! q)).
Proof.
  unfold push_back, traits_allocate, traits_construct, bind, on_alloc,
    in_world, in_object, log, modify, ret. simpl.
  destruct (allocate 1 (alloc_ c, w)) as [[p|e|] [a1 w1]] eqn:Halloc;
    simpl; [|done..].
  intros [= <- <-]. simpl.
  destruct (allocate_ok_inv _ _ _ _ _ _ Halloc)
    as (k & Hfb & Hnext & Hobjs & Hcout & Hcalls & Hold & Hnew).
  exists p, k. rewrite Hobjs, !calls_app, Hcalls. simpl.
  by rewrite <- app_assoc.
Qed.

Lemma push_back_owns value c w c' w' :
  push_back value (c, w) = (Ok tt, (c', w')) → owns c w → owns c' w'.
Proof.
  intros Hpush [Hnd Hlive].
  destruct (push_back_ok_inv _ _ _ _ _ Hpush)
    as (p & k & Hel & _ & Hfb & Hnext & _ & _ & _ & Hold & Hnew).
  assert (Hperm : elements_ c' ++ free_blocks (alloc_ c')
                  ≡ₚ (elements_ c ++ free_blocks (alloc_ c))
                     ++ blocks_from (next_addr w) k).
  { rewrite Hel, <- !app_assoc, Hfb.
    apply Permutation_app_head. apply Permutation_app_comm. }
  split.
  - rewrite Hperm. apply NoDup_app. split_and!; [done| |apply blocks_from_NoDup].
    intros q Hq Hq'. apply Hlive in Hq as [Hq _].
    apply blocks_from_elem in Hq'. lia.
  - intros q Hq. rewrite Hperm in Hq. apply elem_of_app in Hq as [Hq|Hq].
    + destruct (Hlive q Hq) as [Hlt Hl]. split; [lia|]. by rewrite Hold.
    + split; [|by apply Hnew]. apply blocks_from_elem in Hq. lia.
Qed.

Lemma push_back_holds value c w c' w' vs :
  push_back value (c, w) = (Ok tt, (c', w')) →
  owns c w → holds c w vs → holds c' w' (vs ++ [value]).
Proof.
  intros Hpush Howns Hholds.
  pose proof (push_back_owns _ _ _ _ _ Hpush Howns) as [Hnd' _].
  destruct (push_back_ok_inv _ _ _ _ _ Hpush)
    as (p & k & Hel & _ & _ & _ & Hobjs & _).
  unfold holds in *. rewrite Hel, Hobjs. rewrite Hel in Hnd'.
  apply Forall2_app.
  - eapply Forall2_impl_elem; [exact Hholds|]. intros q v Hqin Hq. simpl in *.
    rewrite lookup_insert_ne; [done|]. intros ->.
    apply NoDup_app in Hnd' as (Hnd' & _ & _).
    apply NoDup_app in Hnd' as (_ & Hdisj & _).
    apply (Hdisj _ Hqin). by apply list_elem_of_singleton.
  - constructor; [|constructor]. apply lookup_insert_eq.
Qed.
End PoolContainerFacts.

Section PoolContainerRuns.
Context {T : Type} `{SizeOf T} `{Pretty T} {BlockSize : N}.
Implicit Types (a : MyAllocator T BlockSize) (w : World T)
               (c : MyContainer T (MyAllocator T BlockSize)).

Lemma owns_ctor w :
  owns (MyContainer_ctor (MyAllocator_default : MyAllocator T BlockSize)) w.
Proof.
  split; simpl; [constructor|]. intros p Hp. by apply elem_of_nil in Hp.
Qed.

(** A completed run of appends keeps ownership, records one address per
    value and stores the values behind them. *)
Lemma appends_inv vs c w c' w' vs0 :
  for_each push_back vs (c, w) = (Ok tt, (c', w')) →
  owns c w → holds c w vs0 →
  owns c' w' ∧ holds c' w' (vs0 ++ vs) ∧
  length (elements_ c') = (length (elements_ c) + length vs)%nat.
Proof.
  revert c w vs0. induction vs as [|v vs IH]; intros c w vs0 Hrun Howns Hholds.
  - simpl in Hrun. unfold ret in Hrun. simplify_eq.
    rewrite app_nil_r. split_and!; done.
  - simpl in Hrun. unfold bind in Hrun.
    destruct (push_back v (c, w)) as [[[]|e|] [c1 w1]] eqn:Hpush; [|done..].
    destruct (IH c1 w1 (vs0 ++ [v]) Hrun) as (Ho & Hh & Hlen).
    + by eapply push_back_owns.
    + by eapply push_back_holds.
    + split_and!; [done|by rewrite <- app_assoc in Hh|].
      destruct (push_back_ok_inv _ _ _ _ _ Hpush) as (p & k & Hel & _).
      rewrite Hlen, Hel, length_app. simpl. lia.
Qed.

Lemma appends_reachable vs c w r c' w' :
  for_each push_back vs (c, w) = (r, (c', w')) →
  reachable c → reachable c'.
Proof.
  revert c w. induction vs as [|v vs IH]; intros c w Hrun Hreach.
  - simpl in Hrun. unfold ret in Hrun. by simplify_eq.
  - simpl in Hrun. unfold bind in Hrun.
    destruct (push_back v (c, w)) as [r1 [c1 w1]] eqn:Hpush.
    assert (reachable c1) by (by eapply reachable_push_back).
    destruct r1 as [[]|e|]; [by eapply IH|by simplify_eq..].
Qed.

(** Appends that find their blocks in the pool all complete. *)
Lemma appends_from_pool vs c w :
  1 ≤ BlockSize →
  (length vs ≤ length (free_blocks (alloc_ c)))%nat →
  ∃ c' w', for_each push_back vs (c, w) = (Ok tt, (c', w')).
Proof.
  intros Hpos. revert c w. induction vs as [|v vs IH]; intros c w Hlen.
  - by exists c, w.
  - destruct c as [[l] els sz]. simpl in Hlen.
    destruct l as [|q l _] using rev_ind; [simpl in Hlen; lia|].
    rewrite length_app in Hlen. simpl in Hlen.
    simpl for_each. unfold bind at 1.
    unfold push_back, traits_allocate, traits_construct, bind, on_alloc,
      in_world, in_object, log, modify, ret. simpl.
    rewrite (allocate_pool_nonempty 1 _ w l q) by done. simpl.
    apply IH. simpl. lia.
Qed.

(** The first append on an empty pool, with memory for a batch, behaves
    like an append on the pool that [expand()] leaves behind. *)
Lemma push_back_fresh value c w :
  1 ≤ BlockSize → free_blocks (alloc_ c) = [] →
  BlockSize * sizeof ≤ room w →
  push_back value (c, w)
  = push_back value
      (mkContainer (mkAlloc (blocks_from (next_addr w) (N.to_nat BlockSize)))
                   (elements_ c) (size_ c),
       world_news sizeof (N.to_nat BlockSize) (world_log EvExpand w)).
Proof.
  intros Hpos Hfb Hroom.
  unfold push_back, traits_allocate, bind, on_alloc. simpl.
  rewrite allocate_fresh_ok by done.
  destruct (N.to_nat BlockSize) as [|k] eqn:Hk; [lia|].
  rewrite (allocate_pool_nonempty 1 _ _ (blocks_from (next_addr w) k)
             (next_addr w + N.of_nat k));
    [|done|by rewrite blocks_from_snoc].
  replace (next_addr w + BlockSize - 1) with (next_addr w + N.of_nat k) by lia.
  by replace (S k - 1)%nat with k by lia.
Qed.

(** Appends that fit into the first batch all complete. *)
Lemma appends_within_batch vs c w :
  1 ≤ BlockSize → free_blocks (alloc_ c) = [] →
  BlockSize * sizeof ≤ room w →
  (length vs ≤ N.to_nat BlockSize)%nat →
  ∃ c' w', for_each push_back vs (c, w) = (Ok tt, (c', w')).
Proof.
  intros Hpos Hfb Hroom Hlen. destruct vs as [|v vs]; [by exists c, w|].
  assert (Heq : for_each push_back (v :: vs) (c, w)
    = for_each push_back (v :: vs)
        (mkContainer (mkAlloc (blocks_from (next_addr w) (N.to_nat BlockSize)))
                     (elements_ c) (size_ c),
         world_news sizeof (N.to_nat BlockSize) (world_log EvExpand w))).
  { rewrite !for_each_cons. unfold bind. by rewrite push_back_fresh. }
  rewrite Heq. apply appends_from_pool; [done|].
  cbn [alloc_ free_blocks]. by rewrite blocks_from_length.
Qed.

(** [print] writes the values behind the recorded addresses, in order. *)
Lemma print_loop_holds ps vs c w :
  Forall2 (λ p v, objs w !! p = Some v) ps vs →
  for_each (λ p : ptr,
    let* v := in_world (deref p) in
    in_world (print_string (pretty v)) ;;;
    in_world (print_string " ")) ps (c, w)
  = (Ok tt, (c, mkWorld (next_addr w) (room w) (live w) (objs w) (trace w)
                        (cout w ++ (vs ≫= λ v, [pretty v; " "])))).
Proof.
  revert vs w. induction ps as [|p ps IH]; intros vs w Hall.
  - apply Forall2_nil_inv_l in Hall as ->. simpl. unfold ret.
    rewrite app_nil_r. by destruct w.
  - apply Forall2_cons_inv_l in Hall as (v & vs' & Hp & Hrest & ->).
    simpl for_each. unfold bind at 1. unfold bind at 1.
    unfold in_world at 1, deref. rewrite Hp.
    unfold bind, in_world at 1 2, print_string, modify.
    rewrite (IH vs') by done. simpl. by rewrite <- !app_assoc.
Qed.

Lemma print_holds vs c w :
  holds c w vs →
  print (c, w)
  = (Ok tt, (c, mkWorld (next_addr w) (room w) (live w) (objs w) (trace w)
                        (cout w ++ (vs ≫= λ v, [pretty v; " "]) ++ [endl]))).
Proof.
  intros Hholds. unfold print, bind, get. simpl fst.
  rewrite (print_loop_holds _ vs) by done.
  unfold in_world, print_string, modify, world_print. simpl.
  by rewrite <- app_assoc.
Qed.
End PoolContainerRuns.

Section PoolContainerTeardown.
Context {T : Type} `{SizeOf T} `{Pretty T} {BlockSize : N}.
Implicit Types (a : MyAllocator T BlockSize) (w : World T)
               (c : MyContainer T (MyAllocator T BlockSize)).

Lemma teardown_step_pool p c w :
  1 ≤ BlockSize →
  (traits_destroy p ;;; traits_deallocate p 1) (c, w)
  = (Ok tt,
     (mkContainer (mkAlloc (free_blocks (alloc_ c) ++ [p]))
                  (elements_ c) (size_ c),
      world_log (EvDeallocate p 1)
        (world_destroy p (world_log (EvDestroy p) w)))).
Proof.
  intros Hpos.
  unfold traits_destroy, traits_deallocate, bind, on_alloc, in_world, log,
    modify. simpl.
  by rewrite deallocate_pool.
Qed.

Lemma teardown_step_bypass p bytes c w :
  BlockSize < 1 → live w !! p = Some bytes →
  (traits_destroy p ;;; traits_deallocate p 1) (c, w)
  = (Ok tt,
     (c, world_delete p bytes
           (world_log (EvDeallocate p 1)
              (world_destroy p (world_log (EvDestroy p) w))))).
Proof.
  intros Hzero Hlive.
  unfold traits_destroy, traits_deallocate, bind, on_alloc, in_world, log,
    modify. simpl.
  rewrite deallocate_bypass by done.
  unfold in_world, operator_delete. simpl. rewrite Hlive. by destruct c.
Qed.

(** The loop of the destructor over distinct live blocks. *)
Lemma teardown_loop l c w :
  NoDup l → (∀ p, p ∈ l → is_Some (live w !! p)) →
  ∃ c' w',
    for_each (λ p, traits_destroy p ;;; traits_deallocate p 1) l (c, w)
    = (Ok tt, (c', w')) ∧
    elements_ c' = elements_ c ∧
    calls (trace w') = calls (trace w) ++ teardown_calls l ∧
    (∀ q, objs w !! q = None ∨ q ∈ l → objs w' !! q = None) ∧
    (1 ≤ BlockSize → free_blocks (alloc_ c') = free_blocks (alloc_ c) ++ l) ∧
    (BlockSize < 1 → ∀ q, live w !! q = None ∨ q ∈ l → live w' !! q = None).
Proof.
  intros Hnd. revert c w.
  induction Hnd as [|p l Hp Hnd IH]; intros c w Hlive.
  - exists c, w. simpl. rewrite !app_nil_r.
    split_and!; try done.
    + intros q [Hq|Hq]; [done|by apply elem_of_nil in Hq].
    + intros _ q [Hq|Hq]; [done|by apply elem_of_nil in Hq].
  - simpl for_each. unfold bind at 1.
    destruct (N.lt_ge_cases BlockSize 1) as [Hzero|Hpos].
    + destruct (Hlive p) as [bytes Hbytes]; [left|].
      rewrite (teardown_step_bypass p bytes) by done.
      destruct (IH c (world_delete p bytes
           (world_log (EvDeallocate p 1)
              (world_destroy p (world_log (EvDestroy p) w)))))
        as (c' & w' & Hrun & Hel & Hcalls & Hobjs & Hpool & Hdel).
      { intros q Hq. simpl. rewrite lookup_delete_ne; [|by intros ->].
        apply Hlive. by right. }
      exists c', w'. split_and!; try done.
      * rewrite Hcalls. simpl. rewrite !calls_app. simpl.
        by rewrite <- !app_assoc.
      * intros q Hq. apply Hobjs. simpl.
        destruct (decide (q = p)) as [->|Hne]; [left; apply lookup_delete_eq|].
        destruct Hq as [Hq|[->|Hq]%elem_of_cons]; [|done|by right].
        left. by rewrite lookup_delete_ne.
      * intros; lia.
      * intros _ q Hq. apply (Hdel Hzero). simpl.
        destruct (decide (q = p)) as [->|Hne]; [left; apply lookup_delete_eq|].
        destruct Hq as [Hq|[->|Hq]%elem_of_cons]; [|done|by right].
        left. by rewrite lookup_delete_ne.
    + rewrite teardown_step_pool by done.
      match goal with
      | |- context [for_each _ l (?c1, ?w1)] =>
          destruct (IH c1 w1)
            as (c' & w' & Hrun & Hel & Hcalls & Hobjs & Hpool & Hdel)
      end.
      { intros q Hq. simpl. apply Hlive. by right. }
      exists c', w'. split_and!; try done.
      * rewrite Hcalls. simpl. rewrite !calls_app. simpl.
        by rewrite <- !app_assoc.
      * intros q Hq. apply Hobjs. simpl.
        destruct (decide (q = p)) as [->|Hne]; [left; apply lookup_delete_eq|].
        destruct Hq as [Hq|[->|Hq]%elem_of_cons]; [|done|by right].
        left. by rewrite lookup_delete_ne.
      * intros _. rewrite (Hpool Hpos). simpl. by rewrite <- app_assoc.
      * intros; lia.
Qed.
End PoolContainerTeardown.

(** ** The container's testable properties *)

Section PoolContainerProperties.
Context {T : Type} `{SizeOf T} `{Pretty T} {BlockSize : N}.
Implicit Types (a : MyAllocator T BlockSize) (w : World T)
               (c : MyContainer T (MyAllocator T BlockSize)).

Lemma appends_calls vs c w c' w' :
  for_each push_back vs (c, w) = (Ok tt, (c', w')) →
  ∃ ps, elements_ c' = elements_ c ++ ps ∧
        calls (trace w')
        = calls (trace w) ++ (ps ≫= λ p, [EvAllocate 1 p; EvConstruct p]).
Proof.
  revert c w. induction vs as [|v vs IH]; intros c w Hrun.
  - simpl in Hrun. unfold ret in Hrun. simplify_eq.
    exists []. simpl. by rewrite !app_nil_r.
  - simpl in Hrun. unfold bind in Hrun.
    destruct (push_back v (c, w)) as [[[]|e|] [c1 w1]] eqn:Hpush; [|done..].
    destruct (IH c1 w1 Hrun) as (ps & Hel & Hcalls).
    destruct (push_back_ok_inv _ _ _ _ _ Hpush)
      as (p & k & Hel1 & _ & _ & _ & _ & _ & Hcalls1 & _).
    exists (p :: ps). rewrite Hel, Hel1, Hcalls, Hcalls1. simpl.
    by rewrite <- !app_assoc.
Qed.

(** C6 (teardown).  A container that was created on a fresh pool
    allocator and filled by [N] appends has recorded [N] pairwise
    distinct addresses: one [allocate(1)] and one [construct] each.  Its
    destructor completes; for every recorded address, in order, it calls
    [destroy] and then [deallocate] with count 1 on [alloc_], each
    address once; afterwards no recorded address holds an object, and the
    blocks are back in the pool of [alloc_] (or, with a batch size of 0,
    given back to the system). *)
Theorem container_teardown vs w0 c w :
  for_each push_back vs
    (MyContainer_ctor (MyAllocator_default : MyAllocator T BlockSize), w0)
  = (Ok tt, (c, w)) →
  length (elements_ c) = length vs ∧
  NoDup (elements_ c) ∧
  calls (trace w)
  = calls (trace w0) ++ (elements_ c ≫= λ p, [EvAllocate 1 p; EvConstruct p]) ∧
  ∃ c' w',
    MyContainer_dtor (c, w) = (Ok tt, (c', w')) ∧
    calls (trace w') = calls (trace w) ++ teardown_calls (elements_ c) ∧
    (∀ p, p ∈ elements_ c → objs w' !! p = None) ∧
    (1 ≤ BlockSize →
       free_blocks (alloc_ c') = free_blocks (alloc_ c) ++ elements_ c) ∧
    (BlockSize < 1 → ∀ p, p ∈ elements_ c → live w' !! p = None).
Proof.
  intros Hrun.
  destruct (appends_inv vs _ _ _ _ [] Hrun (owns_ctor w0))
    as ([Hnd Hlive] & _ & Hlen); [constructor|].
  destruct (appends_calls _ _ _ _ _ Hrun) as (ps & Hps & Hcalls).
  simpl in Hps, Hlen. subst ps.
  apply NoDup_app in Hnd as (Hnd & _ & _).
  split_and!; try done.
  destruct (teardown_loop (elements_ c) c w Hnd)
    as (c' & w' & Hloop & _ & Htd & Hobjs & Hpool & Hdel).
  { intros p Hp. apply Hlive. apply elem_of_app. by left. }
  exists c', w'. unfold MyContainer_dtor, bind, get. simpl fst.
  split_and!; try done.
  - intros p Hp. apply Hobjs. by right.
  - intros Hzero p Hp. apply (Hdel Hzero). by right.
Qed.
End PoolContainerProperties.

(** C7 (append scenario).  Appending 0, 1, ..., 9 to an empty
    [MyContainer<int, MyAllocator<int, 10>>], with memory for one batch
    available, completes; [size()] then returns 10 and [print()] writes
    exactly 0 to 9 in insertion order, each followed by a space, and a
    newline. *)
Theorem append_scenario (w : World Z) :
  10 * sizeof (T:=Z) ≤ room w →
  ∃ c w1,
    fill_container
      (MyContainer_ctor (MyAllocator_default : MyAllocator Z 10), w)
    = (Ok tt, (c, w1)) ∧
    size (c, w1) = (Ok 10, (c, w1)) ∧
    ∃ w2, print (c, w1) = (Ok tt, (c, w2)) ∧
          cout w2 = cout w1 ++ ["0"; " "; "1"; " "; "2"; " "; "3"; " "; "4"; " ";
                                "5"; " "; "6"; " "; "7"; " "; "8"; " "; "9"; " ";
                                endl].
Proof.
  intros Hroom. unfold fill_container.
  set (c0 := MyContainer_ctor (MyAllocator_default : MyAllocator Z 10)).
  set (vs := Z.of_nat <$> seq 0 10).
  assert (Hrun : ∃ c w1, for_each push_back vs (c0, w) = (Ok tt, (c, w1))).
  { apply appends_within_batch; [done|done|exact Hroom|].
    unfold vs. rewrite length_fmap, length_seq. reflexivity. }
  destruct Hrun as (c & w1 & Hrun). exists c, w1.
  destruct (appends_inv vs _ _ _ _ [] Hrun (owns_ctor w))
    as (_ & Hholds & Hlen); [constructor|].
  split; [done|]. split.
  - unfold size. f_equal. f_equal.
    rewrite (reachable_count c).
    + rewrite Hlen. reflexivity.
    + eapply appends_reachable; [exact Hrun|constructor].
  - rewrite (print_holds vs c w1 Hholds). eexists. split; [reflexivity|].
    cbn [cout]. apply (f_equal (app (cout w1))). vm_compute. reflexivity.
Qed.

(** ** The map on the pool allocator *)

Lemma expansions_after_batch {T} bytes k (w : World T) :
  expansions (trace (world_news bytes k (world_log EvExpand w)))
  = S (expansions (trace w)).
Proof.
  rewrite world_news_trace.
  change (trace (world_log EvExpand w)) with (trace w ++ [EvExpand]).
  rewrite !expansions_app, expansions_news.
  change (expansions [EvExpand]) with 1%nat. lia.
Qed.

Section PoolMapFacts.
Context {BlockSize : N}.
Implicit Types (m : StdMap (MyAllocator (Z * Z) BlockSize)) (w : World (Z * Z)).

Lemma nodes_find_above k (l : list (Z * ptr)) :
  Forall (λ kp, kp.1 < k)%Z l → nodes_find k l = None.
Proof.
  induction 1 as [|[k' p] l Hk _ IH]; [done|]. simpl in *.
  destruct (Z.eqb_spec k k'); [lia|done].
Qed.

Lemma nodes_insert_above k p (l : list (Z * ptr)) :
  Forall (λ kp, kp.1 < k)%Z l → nodes_insert k p l = l ++ [(k, p)].
Proof.
  induction 1 as [|[k' p'] l Hk _ IH]; [done|]. simpl in *.
  destruct (Z.ltb_spec k k'); [lia|]. by rewrite IH.
Qed.

(** Assigning under a key above all present keys, with a block in the pool:
    the block at the back of the pool becomes the last node. *)
Lemma map_assign_pool k v m w fb p :
  1 ≤ BlockSize → free_blocks (node_alloc m) = fb ++ [p] →
  Forall (λ kp, kp.1 < k)%Z (nodes m) →
  map_assign k v (m, w)
  = (Ok tt, (mkMap (mkAlloc fb) (nodes m ++ [(k, p)]),
             world_construct p (k, v) (world_construct p (k, 0%Z) w))).
Proof.
  intros Hpos Hfb Hk.
  unfold map_assign, map_subscript, bind, get. simpl fst.
  rewrite nodes_find_above by done.
  unfold on_node_alloc. simpl alloc_allocate.
  rewrite (allocate_pool_nonempty 1 (node_alloc m) w fb p) by done.
  simpl. unfold in_world, in_object, construct, assign, bind, deref,
    placement_new, modify, ret. simpl.
  rewrite lookup_insert_eq. simpl. by rewrite nodes_insert_above.
Qed.

(** The first assignment on an empty pool, with memory for a batch, behaves
    like an assignment on the pool that [expand()] leaves behind. *)
Lemma map_assign_fresh k v m w :
  1 ≤ BlockSize → free_blocks (node_alloc m) = [] →
  BlockSize * sizeof (T:=Z * Z) ≤ room w →
  nodes_find k (nodes m) = None →
  map_assign k v (m, w)
  = map_assign k v
      (mkMap (mkAlloc (blocks_from (next_addr w) (N.to_nat BlockSize))) (nodes m),
       world_news (sizeof (T:=Z * Z)) (N.to_nat BlockSize) (world_log EvExpand w)).
Proof.
  intros Hpos Hfb Hroom Hfind.
  unfold map_assign, map_subscript, bind, get. cbn [fst nodes].
  rewrite Hfind.
  unfold on_node_alloc. cbn [alloc_allocate MyAllocator_Allocator node_alloc].
  rewrite allocate_fresh_ok by done.
  destruct (N.to_nat BlockSize) as [|j] eqn:Hj; [lia|].
  rewrite (allocate_pool_nonempty 1 _ _ (blocks_from (next_addr w) j)
             (next_addr w + N.of_nat j));
    [|done|by rewrite blocks_from_snoc].
  replace (next_addr w + BlockSize - 1) with (next_addr w + N.of_nat j) by lia.
  by replace (S j - 1)%nat with j by lia.
Qed.

(** Assignments under ascending new keys that find their blocks in the
    pool all complete and leave the pairs behind the nodes. *)
Lemma assigns_pool kvs m w kvs0 :
  1 ≤ BlockSize →
  (length kvs ≤ length (free_blocks (node_alloc m)))%nat →
  NoDup (free_blocks (node_alloc m)) →
  (∀ kp, kp ∈ nodes m → kp.2 ∉ free_blocks (node_alloc m)) →
  map_holds m w kvs0 →
  Forall (λ kp, Forall (λ kv, kp.1 < kv.1)%Z kvs) (nodes m) →
  StronglySorted (λ kv1 kv2 : Z * Z, kv1.1 < kv2.1)%Z kvs →
  ∃ m' w',
    for_each (λ kv, map_assign kv.1 kv.2) kvs (m, w) = (Ok tt, (m', w')) ∧
    map_holds m' w' (kvs0 ++ kvs) ∧ trace w' = trace w ∧ cout w' = cout w.
Proof.
  intros Hpos. revert m w kvs0.
  induction kvs as [|[k v] kvs IH]; intros m w kvs0 Hlen Hnd Hdisj Hholds Hbelow Hsorted.
  - exists m, w. by rewrite app_nil_r.
  - destruct m as [[l] ns]. cbn [node_alloc nodes free_blocks] in *.
    destruct l as [|p fb _] using rev_ind; [simpl in Hlen; lia|].
    rewrite length_app in Hlen. simpl in Hlen.
    apply NoDup_app in Hnd as (Hnd & Hp & _).
    apply StronglySorted_inv in Hsorted as [Hsorted Hhead].
    assert (Hk : Forall (λ kp : Z * ptr, kp.1 < k)%Z ns).
    { eapply Forall_impl; [exact Hbelow|]. intros kp Hkp.
      by apply Forall_cons in Hkp as [Hkp _]. }
    rewrite for_each_cons. unfold bind at 1. cbn [fst snd].
    rewrite (map_assign_pool k v _ w fb p) by done.
    destruct (IH (mkMap (mkAlloc fb) (ns ++ [(k, p)]))
                 (world_construct p (k, v) (world_construct p (k, 0%Z) w))
                 (kvs0 ++ [(k, v)]))
      as (m' & w' & Hrun & Hholds' & Htrace & Hcout); simpl.
    + lia.
    + done.
    + intros kp [Hkp| ->%list_elem_of_singleton]%elem_of_app.
      * intros Hin. apply (Hdisj kp Hkp). apply elem_of_app. by left.
      * simpl. intros Hin. apply (Hp p Hin). by left.
    + apply Forall2_app.
      * eapply Forall2_impl_elem; [exact Hholds|]. intros kp kv Hkp Hobj. simpl.
        assert (Hne : p ≠ kp.2).
        { intros ->. apply (Hdisj kp Hkp). apply elem_of_app. right. by left. }
        by rewrite !lookup_insert_ne.
      * constructor; [|constructor]. simpl. apply lookup_insert_eq.
    + apply Forall_app. split.
      * eapply Forall_impl; [exact Hbelow|]. intros kp Hkp.
        by apply Forall_cons in Hkp as [_ Hkp].
      * constructor; [|constructor]. exact Hhead.
    + done.
    + exists m', w'. by rewrite <- app_assoc in Hholds'.
Qed.

Lemma print_map_loop ns kvs m w :
  Forall2 (λ (kp : Z * ptr) kv, objs w !! kp.2 = Some kv) ns kvs →
  for_each (λ kp : Z * ptr,
    let* kv := in_world (deref (snd kp)) in
    in_world (print_string "Key: ") ;;;
    in_world (print_string (pretty (fst kv))) ;;;
    in_world (print_string ", Value: ") ;;;
    in_world (print_string (pretty (snd kv))) ;;;
    in_world (print_string endl)) ns (m, w)
  = (Ok tt, (m, mkWorld (next_addr w) (room w) (live w) (objs w) (trace w)
                        (cout w ++ (kvs ≫= map_line)))).
Proof.
  revert kvs w. induction ns as [|kp ns IH]; intros kvs w Hall.
  - apply Forall2_nil_inv_l in Hall as ->. simpl. unfold ret.
    rewrite app_nil_r. by destruct w.
  - apply Forall2_cons_inv_l in Hall as (kv & kvs' & Hkv & Hrest & ->).
    rewrite for_each_cons. unfold bind at 1. unfold bind at 1.
    unfold in_world at 1, deref. rewrite Hkv.
    unfold bind, in_world at 1 2 3 4 5, print_string, modify.
    rewrite (IH kvs') by done. unfold map_line. simpl.
    by rewrite <- !app_assoc.
Qed.

(** [print_map] writes the pairs behind the nodes, in key order. *)
Lemma print_map_holds kvs m w :
  map_holds m w kvs →
  print_map (m, w)
  = (Ok tt, (m, mkWorld (next_addr w) (room w) (live w) (objs w) (trace w)
                        (cout w ++ (kvs ≫= map_line)))).
Proof.
  intros Hholds. unfold print_map. unfold bind at 1. unfold get. cbn [fst].
  by apply print_map_loop.
Qed.

(** Filling an empty map whose pool is empty with at most one batch of
    ascending keys: one expansion, and the pairs end up behind the nodes. *)
Lemma assigns_within_batch kvs m w :
  1 ≤ BlockSize → free_blocks (node_alloc m) = [] → nodes m = [] →
  BlockSize * sizeof (T:=Z * Z) ≤ room w →
  (length kvs ≤ N.to_nat BlockSize)%nat → kvs ≠ [] →
  StronglySorted (λ kv1 kv2 : Z * Z, kv1.1 < kv2.1)%Z kvs →
  ∃ m' w',
    for_each (λ kv, map_assign kv.1 kv.2) kvs (m, w) = (Ok tt, (m', w')) ∧
    map_holds m' w' kvs ∧
    expansions (trace w') = S (expansions (trace w)) ∧
    cout w' = cout w.
Proof.
  intros Hpos Hfb Hnodes Hroom Hlen Hne Hsorted.
  destruct kvs as [|[k v] kvs]; [done|].
  assert (Heq : for_each (λ kv, map_assign kv.1 kv.2) ((k, v) :: kvs) (m, w)
    = for_each (λ kv, map_assign kv.1 kv.2) ((k, v) :: kvs)
        (mkMap (mkAlloc (blocks_from (next_addr w) (N.to_nat BlockSize))) (nodes m),
         world_news (sizeof (T:=Z * Z)) (N.to_nat BlockSize)
                    (world_log EvExpand w))).
  { rewrite !for_each_cons. unfold bind. cbn [fst snd].
    rewrite map_assign_fresh; [done..|]. by rewrite Hnodes. }
  rewrite Heq.
  match goal with
  | |- context [for_each _ _ (?m1, ?w1)] =>
      destruct (assigns_pool ((k, v) :: kvs) m1 w1 [])
        as (m' & w' & Hrun & Hholds & Htrace & Hcout)
  end; cbn [node_alloc nodes free_blocks]; try done.
  - by rewrite blocks_from_length.
  - apply blocks_from_NoDup.
  - rewrite Hnodes. intros kp Hkp. by apply elem_of_nil in Hkp.
  - rewrite Hnodes. constructor.
  - rewrite Hnodes. constructor.
  - exists m', w'. split_and!; [done|done| |].
    + rewrite Htrace. apply expansions_after_batch.
    + by rewrite Hcout, world_news_cout.
Qed.
End PoolMapFacts.

(** ** The demonstration *)

(** [factorial] never runs out of the fuel it passes itself. *)
Lemma factorial_rec_fuel fuel n :
  (n ≤ Z.of_nat fuel + 1)%Z → factorial_rec fuel n ≠ None.
Proof.
  revert n. induction fuel as [|fuel IH]; intros n Hn; simpl.
  - destruct (Z.leb_spec n 1); [done|lia].
  - destruct (Z.leb_spec n 1); [done|].
    specialize (IH (n - 1)%Z ltac:(lia)).
    by destruct (factorial_rec fuel (n - 1)) as [[r|]|].
Qed.

Lemma factorial_fuel_enough n : factorial_rec (Z.to_nat n) n ≠ None.
Proof. apply factorial_rec_fuel. lia. Qed.

Lemma factorial_table_correct :
  Forall (λ kv : Z * Z, factorial kv.1 = Some kv.2 ∧
                        kv.2 = Z.of_nat (fact (Z.to_nat kv.1)))
         factorial_table.
Proof. unfold factorial_table. repeat constructor. Qed.

Lemma for_each_table {S} (f : Z → option Z) (g : Z → Z → M S unit)
    (keys : list Z) (kvs : list (Z * Z)) :
  Forall2 (λ i kv, kv.1 = i ∧ f i = Some kv.2) keys kvs →
  ∀ s, for_each (λ i, match f i with
                      | Some v => g i v
                      | None => undefined
                      end) keys s
       = for_each (λ kv, g kv.1 kv.2) kvs s.
Proof.
  induction 1 as [|i kv keys kvs [<- Hf] _ IH]; intros s; [done|].
  rewrite !for_each_cons. unfold bind. rewrite Hf.
  destruct (g kv.1 kv.2 s) as [[[]|e|] s']; [apply IH|done..].
Qed.

Lemma fill_factorials_table {A} `{Allocator (Z * Z) A} s :
  fill_factorials s = for_each (λ kv, map_assign kv.1 kv.2) factorial_table s.
Proof.
  unfold fill_factorials. apply for_each_table.
  change (Z.of_nat <$> seq 0 10) with [0; 1; 2; 3; 4; 5; 6; 7; 8; 9]%Z.
  unfold factorial_table. repeat (constructor; [by split|]). constructor.
Qed.

(** C8 (factorial map scenario).  Filling [map2], a map on
    [MyAllocator<node, 10>], with key -> factorial(key) for the keys 0 to 9
    (memory for one batch of nodes being available) completes with exactly
    one entry into [expand()]; the output is "map2:" followed by one line
    "Key: k, Value: k!" per key, in ascending key order, from
    "Key: 0, Value: 1" to "Key: 9, Value: 362880"; and [factorial(k)] is
    [k!] for every [k] from 0 to 9. *)
Theorem factorial_map_scenario (w : World (Z * Z)) :
  10 * sizeof (T:=Z * Z) ≤ room w →
  ∃ w',
    main_map2 w = (Ok tt, w') ∧
    expansions (trace w') = S (expansions (trace w)) ∧
    cout w' = cout w ++ ["map2:"; endl] ++ (factorial_table ≫= map_line) ∧
    Forall (λ kv : Z * Z, factorial kv.1 = Some kv.2 ∧
                          kv.2 = Z.of_nat (fact (Z.to_nat kv.1)))
           factorial_table ∧
    map_line (0, 1)%Z = ["Key: "; "0"; ", Value: "; "1"; endl] ∧
    map_line (9, 362880)%Z = ["Key: "; "9"; ", Value: "; "362880"; endl].
Proof.
  intros Hroom. unfold main_map2.
  destruct (assigns_within_batch (BlockSize:=10) factorial_table
              (mkMap (MyAllocator_rebind
                        (MyAllocator_default : MyAllocator (Z * Z) 10)) []) w)
    as (m' & w' & Hrun & Hholds & Hexp & Hcout); try done.
  { unfold factorial_table.
    repeat (apply SSorted_cons; [|repeat constructor; simpl; lia]).
    apply SSorted_nil. }
  unfold bind at 1. rewrite fill_factorials_table, Hrun.
  unfold bind, in_world, print_string, modify.
  rewrite (print_map_holds factorial_table) by exact Hholds.
  eexists. split; [reflexivity|]. cbn [trace cout world_print].
  split_and!; [done| |apply factorial_table_correct|by vm_compute..].
  rewrite Hcout, <- !app_assoc. done.
Qed.

(** ** Concrete instances

    The properties at work on [MyAllocator<int, 3>] in [small_world]. *)

Example allocate_takes_from_the_back :
  allocations [1; 0; 3] (MyAllocator_default : MyAllocator Z 3, small_world)
  = (Ok [3; 2; 1],
     (mkAlloc [], world_news 4 3 (world_log EvExpand small_world))).
Proof. vm_compute. reflexivity. Qed.

Example allocate_zero_batch_is_undefined :
  fst (allocate 0 (MyAllocator_default : MyAllocator Z 0, small_world)) = UB.
Proof. reflexivity. Qed.

Lemma batch_growth_witness :
  1 ≤ 3 ∧ 3 * sizeof (T:=Z) ≤ room (small_world (T:=Z)) ∧
  expand (MyAllocator_default : MyAllocator Z 3, small_world)
  = (Ok tt, (mkAlloc [1; 2; 3],
             world_news (sizeof (T:=Z)) (N.to_nat 3)
                        (world_log EvExpand small_world))).
Proof.
  assert (H1 : 1 ≤ 3) by lia.
  assert (H2 : 3 * sizeof (T:=Z) ≤ room (small_world (T:=Z))) by (simpl; lia).
  split; [exact H1|]. split; [exact H2|].
  exact (proj1 (batch_growth (T:=Z) (BlockSize:=3) 1 MyAllocator_default
                  small_world H1 eq_refl H2)).
Defined.

Lemma pool_is_lifo_witness :
  1 ≤ 3 ∧
  (deallocate 7 1 ;;; allocate 1) (mkAlloc (T:=Z) (BlockSize:=3) [5; 6], small_world)
  = (Ok 7, (mkAlloc [5; 6], small_world)).
Proof.
  assert (H1 : 1 ≤ 3) by lia.
  split; [exact H1|].
  exact (proj2 (pool_is_lifo (T:=Z) (BlockSize:=3) 1 1 7
                  (mkAlloc [5; 6]) small_world H1 H1)).
Defined.

Lemma bypass_isolation_witness :
  3 < 4 ∧
  free_blocks (fst (snd (allocate 4
    (mkAlloc (T:=Z) (BlockSize:=3) [5; 6], small_world)))) = [5; 6].
Proof.
  assert (H1 : 3 < 4) by lia.
  split; [exact H1|].
  exact (proj1 (proj2 (proj2 (bypass_isolation (T:=Z) (BlockSize:=3) 4 0
                  (mkAlloc [5; 6]) small_world H1)))).
Defined.

Lemma pool_reuse_bound_witness :
  1 ≤ 3 ∧
  (system_allocations
     (trace (snd (snd (reuse_cycles 1 5
        (MyAllocator_default : MyAllocator Z 3, small_world)))))
   ≤ system_allocations (trace (small_world (T:=Z))) + N.to_nat 3)%nat.
Proof.
  assert (H1 : 1 ≤ 3) by lia.
  split; [exact H1|].
  pose proof (pool_reuse_bound (T:=Z) (BlockSize:=3) 5 small_world H1) as Hb.
  destruct (reuse_cycles 1 5 (MyAllocator_default : MyAllocator Z 3, small_world))
    as [r [a' w']].
  exact (proj1 (proj2 Hb)).
Defined.

(** C4 as stated fails for a batch size of 0: [allocate(1)] then takes the
    bypass path, and two cycles make two system allocations. *)
Lemma pool_reuse_unbounded_without_batch :
  let w' := snd (snd (reuse_cycles 1 2
              (MyAllocator_default : MyAllocator Z 0, small_world))) in
  system_allocations (trace w') = 2%nat ∧
  ¬ (system_allocations (trace w')
     ≤ system_allocations (trace (small_world (T:=Z))) + N.to_nat 0)%nat.
Proof. vm_compute. split; [reflexivity|lia]. Qed.

(** C10 as stated fails for a batch size of 0: the count 0 does not exceed
    the batch size and there is memory for the (empty) batch, but
    [expand()] adds nothing to the empty pool and [allocate(0)] reads the
    back of an empty vector; it returns no block. *)
Lemma pool_allocation_undefined_without_batch :
  let s := (MyAllocator_default : MyAllocator Z 0, small_world) in
  0 ≤ 0 ∧ 0 * sizeof (T:=Z) ≤ room (small_world (T:=Z)) ∧
  allocate 0 s = (UB, (MyAllocator_default, world_log EvExpand small_world)) ∧
  ¬ ∃ p s', allocate 0 s = (Ok p, s').
Proof.
  intros s. split_and!; [lia|simpl; lia|reflexivity|].
  intros (p & s' & Hrun). vm_compute in Hrun. discriminate Hrun.
Qed.

Lemma pool_allocation_one_block_witness :
  2 ≤ 3 ∧
  allocate 2 (mkAlloc (T:=Z) (BlockSize:=3) [5; 6], small_world)
  = (Ok 6, (mkAlloc [5], small_world)).
Proof.
  assert (H1 : 2 ≤ 3) by lia.
  split; [exact H1|].
  exact (proj1 (proj2 (pool_allocation_one_block (T:=Z) (BlockSize:=3) 2
                  (mkAlloc [5; 6]) small_world H1)) [5] 6 eq_refl).
Defined.

Lemma container_bookkeeping_witness :
  reachable small_container ∧
  N.of_nat (length (elements_ small_container)) < size_t_modulus ∧
  N.of_nat (length (elements_ small_container)) = size_ small_container.
Proof.
  assert (Hreach : reachable small_container).
  { eapply (reachable_push_back
              (MyContainer_ctor (MyAllocator_default : MyAllocator Z 3))
              small_world 7%Z);
      [apply reachable_ctor|vm_compute; reflexivity]. }
  assert (Hlen : N.of_nat (length (elements_ small_container)) < size_t_modulus)
    by (vm_compute; reflexivity).
  split; [exact Hreach|]. split; [exact Hlen|].
  exact (proj1 (container_bookkeeping _ small_world Hreach Hlen)).
Defined.

Lemma container_teardown_witness :
  let R := for_each push_back [7; 8]%Z
             (MyContainer_ctor (MyAllocator_default : MyAllocator Z 3),
              small_world) in
  R = (Ok tt, (R.2.1, R.2.2)) ∧
  length (elements_ R.2.1) = 2%nat ∧ NoDup (elements_ R.2.1).
Proof.
  intros R.
  assert (HR : R = (Ok tt, (R.2.1, R.2.2))) by (vm_compute; reflexivity).
  split; [exact HR|].
  pose proof (container_teardown (T:=Z) (BlockSize:=3) [7; 8]%Z small_world
                R.2.1 R.2.2 HR) as (Hlen & Hnd & _).
  split; [exact Hlen|exact Hnd].
Defined.

Lemma append_scenario_witness :
  10 * sizeof (T:=Z) ≤ room (small_world (T:=Z)) ∧
  ∃ c w1,
    fill_container
      (MyContainer_ctor (MyAllocator_default : MyAllocator Z 10), small_world)
    = (Ok tt, (c, w1)) ∧
    size (c, w1) = (Ok 10, (c, w1)).
Proof.
  assert (H1 : 10 * sizeof (T:=Z) ≤ room (small_world (T:=Z))) by (simpl; lia).
  split; [exact H1|].
  destruct (append_scenario small_world H1) as (c & w1 & Hfill & Hsize & _).
  exists c, w1. split; [exact Hfill|exact Hsize].
Defined.

Lemma factorial_map_scenario_witness :
  10 * sizeof (T:=Z * Z) ≤ room (small_world (T:=Z * Z)) ∧
  ∃ w', main_map2 small_world = (Ok tt, w') ∧
        expansions (trace w') = 1%nat.
Proof.
  assert (H1 : 10 * sizeof (T:=Z * Z) ≤ room (small_world (T:=Z * Z)))
    by (simpl; lia).
  split; [exact H1|].
  destruct (factorial_map_scenario small_world H1) as (w' & Hmain & Hexp & _).
  exists w'. split; [exact Hmain|exact Hexp].
Defined.

(** * Further properties of the code *)

(** ** The allocator at its edges *)

Section AllocatorEdges.
Context {T : Type} `{SizeOf T} {BlockSize : N}.
Implicit Types (a : MyAllocator T BlockSize) (w : World T).

(** The loop of [expand()] when memory runs out before the batch is
    complete: it has pushed as many blocks as fit. *)
Lemma expand_loop_short k a w :
  0 < sizeof → room w < N.of_nat k * sizeof →
  expand_loop k (a, w)
  = (Throw bad_alloc,
     (mkAlloc (free_blocks a
               ++ blocks_from (next_addr w) (N.to_nat (room w / sizeof))),
      world_news sizeof (N.to_nat (room w / sizeof)) w)).
Proof.
  intros Hpos. revert a w. induction k as [|k IH]; intros a w Hroom; [lia|].
  simpl expand_loop. unfold bind at 1, in_world.
  destruct (N.leb_spec sizeof (room w)) as [Hr|Hr].
  - rewrite (operator_new_ok _ _ Hr).
    unfold bind at 1, free_blocks_push_back, in_object, modify.
    rewrite IH by (simpl; lia). simpl free_blocks. simpl next_addr. simpl room.
    assert (Hdiv : room w / sizeof = (room w - sizeof) / sizeof + 1).
    { replace (room w) with ((room w - sizeof) + 1 * sizeof) at 1 by lia.
      rewrite N.div_add by lia. done. }
    rewrite Hdiv.
    replace (N.to_nat ((room w - sizeof) / sizeof + 1))
      with (S (N.to_nat ((room w - sizeof) / sizeof))) by lia.
    rewrite blocks_from_S, <- app_assoc. done.
  - rewrite (operator_new_throw _ _ Hr).
    rewrite N.div_small by done. simpl. by rewrite app_nil_r, alloc_eta.
Qed.

(** X1 (out of memory in the middle of a batch).  A pool allocation that
    finds [free_blocks] empty while the system has memory for fewer than
    [BlockSize] blocks throws [std::bad_alloc]; the [room / sizeof(T)]
    blocks that [expand()] did obtain stay in [free_blocks], and when there
    is at least one, the next pool allocation takes the last of them without
    another expansion. *)
Theorem allocate_out_of_memory n a w :
  n ≤ BlockSize → free_blocks a = [] → 0 < sizeof →
  room w < BlockSize * sizeof →
  let j := N.to_nat (room w / sizeof) in
  let a1 : MyAllocator T BlockSize := mkAlloc (blocks_from (next_addr w) j) in
  let w1 := world_news sizeof j (world_log EvExpand w) in
  allocate n (a, w) = (Throw bad_alloc, (a1, w1)) ∧
  (j < N.to_nat BlockSize)%nat ∧
  (j ≠ 0%nat →
   ∀ m, m ≤ BlockSize →
     allocate m (a1, w1)
     = (Ok (next_addr w + N.of_nat j - 1),
        (mkAlloc (blocks_from (next_addr w) (j - 1)), w1))).
Proof.
  intros Hn Hfb Hpos Hroom j a1 w1.
  assert (Hj : (j < N.to_nat BlockSize)%nat).
  { unfold j. assert (room w / sizeof < BlockSize); [|lia].
    apply N.Div0.div_lt_upper_bound. lia. }
  split; [|split; [exact Hj|]].
  - rewrite allocate_pool_empty by done.
    unfold bind, expand. unfold bind, in_world, log, modify.
    rewrite expand_loop_short; [|done|simpl; lia].
    by rewrite Hfb.
  - intros Hj0 m Hm. destruct j as [|j'] eqn:Ej; [done|].
    subst a1. rewrite blocks_from_snoc.
    rewrite (allocate_pool_nonempty m _ w1 (blocks_from (next_addr w) j')
               (next_addr w + N.of_nat j')) by done.
    repeat f_equal; [lia|].
    by replace (S j' - 1)%nat with j' by lia.
Qed.
(** X2 (size of a bypass block).  For [n > BlockSize], [allocate(n)] asks
    the system for [n * sizeof(T)] bytes computed in [size_t]: the block it
    returns is new, has exactly [n * sizeof(T)] bytes when that product fits
    into 64 bits, and strictly fewer when it does not; there is no check for
    the overflow. *)
Theorem bypass_block_size n a w :
  BlockSize < n →
  (n * sizeof) mod size_t_modulus ≤ room w →
  let bytes := (n * sizeof) mod size_t_modulus in
  allocate n (a, w) = (Ok (next_addr w), (a, world_new bytes w)) ∧
  live (world_new bytes w) !! next_addr w = Some bytes ∧
  (n * sizeof < size_t_modulus → bytes = n * sizeof) ∧
  (size_t_modulus ≤ n * sizeof → bytes < n * sizeof).
Proof.
  intros Hn Hroom bytes. split_and!.
  - rewrite allocate_bypass by done. unfold in_world.
    by rewrite operator_new_ok.
  - apply lookup_insert_eq.
  - intros Hfit. by apply N.mod_small.
  - intros Hover. assert (bytes < size_t_modulus); [|lia].
    apply N.mod_upper_bound. done.
Qed.
(** X3 (when [allocate] is undefined).  [allocate] runs into undefined
    behaviour in exactly one situation: the batch size is 0, the count is 0
    and [free_blocks] is empty, so that [expand()] adds nothing and [back()]
    is called on an empty vector. *)
Theorem allocate_undefined_iff n a w :
  fst (allocate n (a, w)) = UB ↔ BlockSize = 0 ∧ n = 0 ∧ free_blocks a = [].
Proof.
  destruct (N.lt_ge_cases BlockSize n) as [Hn|Hn].
  { rewrite allocate_bypass by done. unfold in_world, operator_new.
    split; [by destruct (_ <=? _)|lia]. }
  destruct a as [l]. destruct l as [|q l _] using rev_ind.
  - rewrite allocate_pool_empty by done.
    destruct (expand_spec (mkAlloc (BlockSize:=BlockSize) (T:=T) []) w)
      as (j & Hj & Hexp & _).
    unfold bind. rewrite Hexp. simpl app.
    case_decide as Hjk.
    + subst j. destruct (N.to_nat BlockSize) as [|k] eqn:Hk.
      * simpl. split; [intros _; split_and!; [lia|lia|done]|done].
      * rewrite blocks_from_snoc, take_back_snoc. simpl.
        split; [done|lia].
    + simpl. split; [done|]. intros (-> & _ & _). simpl in *. lia.
  - rewrite (allocate_pool_nonempty n _ w l q) by done. simpl.
    split; [done|]. intros (_ & _ & Hnil). by destruct l.
Qed.

Lemma deallocations_pool ps n a w :
  n ≤ BlockSize →
  for_each (λ p, deallocate p n) ps (a, w)
  = (Ok tt, (mkAlloc (free_blocks a ++ ps), w)).
Proof.
  intros Hn. revert a. induction ps as [|p ps IH]; intros a.
  - simpl. unfold ret. by rewrite app_nil_r, alloc_eta.
  - rewrite for_each_cons. unfold bind. rewrite deallocate_pool by done.
    rewrite IH. simpl. by rewrite <- app_assoc.
Qed.

(** X4 (releases come back in reverse).  On the pool path, releasing the
    blocks [ps] one after the other and then allocating as many times
    returns them in reverse order and leaves allocator and world as they
    were; nothing checks that a block is released only once, so a block
    released twice is handed out twice. *)
Theorem release_then_allocate ps ns n a w :
  n ≤ BlockSize → Forall (λ m, m ≤ BlockSize) ns → length ns = length ps →
  (for_each (λ p, deallocate p n) ps ;;; allocations ns) (a, w)
  = (Ok (rev ps), (a, w)).
Proof.
  intros Hn Hns Hlen. unfold bind. rewrite deallocations_pool by done.
  destruct (allocations_pool ns (mkAlloc (free_blocks a ++ ps)) w Hns)
    as (qs & a' & Hrun & Hfb & Hlen').
  { simpl. rewrite length_app. lia. }
  simpl in Hfb. apply app_inj_2 in Hfb as [Hfb Hps];
    [|rewrite length_rev; lia].
  rewrite Hrun. subst ps. rewrite rev_involutive.
  destruct a' as [l]. simpl in Hfb. subst l. by rewrite alloc_eta.
Qed.
Lemma system_releases_app t1 t2 :
  system_releases (t1 ++ t2) = (system_releases t1 + system_releases t2)%nat.
Proof. unfold system_releases. by rewrite filter_app, length_app. Qed.

Lemma system_releases_news bytes ps : system_releases (EvNew bytes <$> ps) = 0%nat.
Proof. induction ps as [|p ps IH]; [done|]. simpl. apply IH. Qed.

(** The world a pool-path allocation leaves behind: the old one, or the old
    one after an entry into [expand()] and some system allocations. *)
Lemma allocate_pool_world n a w :
  n ≤ BlockSize →
  snd (snd (allocate n (a, w))) = w ∨
  ∃ j, snd (snd (allocate n (a, w)))
       = world_news sizeof j (world_log EvExpand w).
Proof.
  intros Hn. destruct a as [l]. destruct l as [|q l _] using rev_ind.
  - right. rewrite allocate_pool_empty by done.
    destruct (expand_spec (mkAlloc (BlockSize:=BlockSize) (T:=T) []) w)
      as (j & _ & Hexp & _).
    exists j. unfold bind. rewrite Hexp. case_decide; [|done].
    unfold free_blocks_take_back. simpl free_blocks.
    by destruct (last _).
  - left. by rewrite (allocate_pool_nonempty n _ w l q).
Qed.

Lemma run_call_keeps_memory c a w :
  call_count c ≤ BlockSize →
  system_releases (trace (snd (snd (run_call c (a, w)))))
  = system_releases (trace w) ∧
  (∀ q, is_Some (live w !! q) →
        is_Some (live (snd (snd (run_call c (a, w)))) !! q)) ∧
  room (snd (snd (run_call c (a, w)))) ≤ room w.
Proof.
  intros Hc. destruct c as [n|p n]; simpl in Hc; simpl run_call.
  - assert (Hw : snd (snd ((allocate n ;;; ret tt) (a, w)))
                 = snd (snd (allocate n (a, w)))).
    { unfold bind, ret. by destruct (allocate n (a, w)) as [[?|?|] ?]. }
    rewrite Hw. destruct (allocate_pool_world n a w Hc) as [->|[j ->]];
      [split_and!; [done|done|lia]|].
    rewrite world_news_trace, world_news_room. split_and!.
    + change (trace (world_log EvExpand w)) with (trace w ++ [EvExpand]).
      rewrite !system_releases_app, system_releases_news.
      change (system_releases [EvExpand]) with 0%nat. lia.
    + intros q Hq.
      destruct (decide (q ∈ blocks_from (next_addr (world_log EvExpand w)) j)).
      * by rewrite (world_news_live_new sizeof j).
      * by rewrite world_news_live_old.
    + simpl. lia.
  - rewrite deallocate_pool by done. split_and!; [done|done|simpl; lia].
Qed.

(** X5 (the pool never gives memory back).  Whatever sequence of
    [allocate] and [deallocate] calls with counts up to [BlockSize] runs on
    an allocator, and however it ends, [::operator delete] is never called:
    every block that was live stays live and the memory left to the system
    does not grow. *)
Theorem pool_keeps_its_memory cs a w :
  Forall (λ c, call_count c ≤ BlockSize) cs →
  let w' := snd (snd (for_each run_call cs (a, w))) in
  system_releases (trace w') = system_releases (trace w) ∧
  (∀ q, is_Some (live w !! q) → is_Some (live w' !! q)) ∧
  room w' ≤ room w.
Proof.
  intros Hcs. revert a w. induction Hcs as [|c cs Hc _ IH]; intros a w.
  - simpl. split_and!; [done|done|lia].
  - rewrite for_each_cons. unfold bind.
    pose proof (run_call_keeps_memory c a w Hc) as (Hrel & Hlive & Hroom).
    destruct (run_call c (a, w)) as [[[]|e|] [a1 w1]]; simpl in *;
      [|split_and!; done..].
    destruct (IH a1 w1) as (Hrel' & Hlive' & Hroom').
    split_and!; [by rewrite Hrel', Hrel|eauto|lia].
Qed.
End AllocatorEdges.

(** ** The container with any allocator *)

Section ContainerEdges.
Context {T A : Type} `{Allocator T A} `{Pretty T}.
Implicit Types (c : MyContainer T A) (w : World T).

(** X6 (appends stop at the first failure).  A run of appends, with any
    allocator and however it ends, leaves the container with the addresses
    it had followed by one address per completed append, and the count
    raised by their number; all values were appended exactly when the run
    completed, and a failed [push_back] itself records nothing. *)
Theorem appends_stop_at_first_failure vs c w :
  size_ c < size_t_modulus →
  let r := for_each push_back vs (c, w) in
  ∃ ps, elements_ (fst (snd r)) = elements_ c ++ ps ∧
        size_ (fst (snd r))
        = (size_ c + N.of_nat (length ps)) mod size_t_modulus ∧
        (fst r = Ok tt → length ps = length vs) ∧
        (fst r ≠ Ok tt → (length ps < length vs)%nat).
Proof.
  revert c w. induction vs as [|v vs IH]; intros c w Hsz r.
  - exists []. subst r. simpl. rewrite app_nil_r, N.add_0_r.
    rewrite N.mod_small by done. done.
  - subst r. rewrite for_each_cons. unfold bind.
    pose proof (push_back_bookkeeping v c w) as Hb.
    destruct (push_back v (c, w)) as [r1 [c1 w1]].
    destruct Hb as [(-> & [p Hel] & Hsz1)|(Hr1 & Hel & Hsz1)].
    + destruct (IH c1 w1) as (ps & Hels & Hszs & Hok & Hfail).
      { rewrite Hsz1. by apply N.mod_upper_bound. }
      exists (p :: ps). split_and!.
      * by rewrite Hels, Hel, <- app_assoc.
      * rewrite Hszs, Hsz1. rewrite N.Div0.add_mod_idemp_l.
        f_equal. simpl length. lia.
      * intros Hr. simpl. f_equal. by apply Hok.
      * intros Hr. simpl. apply Hfail in Hr. lia.
    + exists []. rewrite app_nil_r, N.add_0_r, N.mod_small by done.
      destruct r1 as [[]|e|]; [done|simpl..];
        (split_and!; [done|done|done|intros _; lia]).
Qed.

Lemma print_loop_read_only ps c w :
  let r := for_each (λ p : ptr,
             let* v := in_world (deref p) in
             in_world (print_string (pretty v)) ;;;
             in_world (print_string " ")) ps (c, w) in
  fst (snd r) = c ∧
  next_addr (snd (snd r)) = next_addr w ∧ room (snd (snd r)) = room w ∧
  live (snd (snd r)) = live w ∧ objs (snd (snd r)) = objs w ∧
  trace (snd (snd r)) = trace w ∧
  (∃ out, cout (snd (snd r)) = cout w ++ out) ∧
  (fst r = Ok tt ∨ fst r = UB) ∧
  (fst r = Ok tt ↔ ∀ p, p ∈ ps → is_Some (objs w !! p)).
Proof.
  revert w. induction ps as [|p ps IH]; intros w r.
  - subst r. simpl. split_and!; try done.
    + exists []. by rewrite app_nil_r.
    + by left.
    + split; [|done]. intros _ p Hp. by apply elem_of_nil in Hp.
  - subst r. destruct (objs w !! p) as [v|] eqn:Hp.
    + assert (Hstep : for_each (λ p : ptr,
             let* v := in_world (deref p) in
             in_world (print_string (pretty v)) ;;;
             in_world (print_string " ")) (p :: ps) (c, w)
        = for_each (λ p : ptr,
             let* v := in_world (deref p) in
             in_world (print_string (pretty v)) ;;;
             in_world (print_string " ")) ps
            (c, world_print " " (world_print (pretty v) w))).
      { rewrite for_each_cons. unfold bind at 1. unfold bind at 1.
        unfold in_world at 1, deref. rewrite Hp.
        by unfold bind at 1 2, in_world at 1 2, print_string, modify. }
      rewrite Hstep.
      destruct (IH (world_print " " (world_print (pretty v) w)))
        as (Hc & Hn & Hr & Hl & Ho & Ht & [out Hout] & Hres & Hok).
      cbn [next_addr room live objs trace cout world_print] in *.
      split_and!; try done.
      * exists ([pretty v; " "] ++ out). rewrite Hout.
        by rewrite <- !app_assoc.
      * rewrite Hok. split.
        -- intros Hall q [->|Hq]%elem_of_cons; [by rewrite Hp|by apply Hall].
        -- intros Hall q Hq. apply Hall. by right.
    + assert (Hstep : for_each (λ p : ptr,
             let* v := in_world (deref p) in
             in_world (print_string (pretty v)) ;;;
             in_world (print_string " ")) (p :: ps) (c, w) = (UB, (c, w))).
      { rewrite for_each_cons. unfold bind at 1. unfold bind at 1.
        unfold in_world at 1, deref. by rewrite Hp. }
      rewrite Hstep. simpl. split_and!; try done.
      * exists []. by rewrite app_nil_r.
      * by right.
      * split; [done|]. intros Hall. destruct (Hall p) as [v Hv]; [left|].
        congruence.
Qed.

(** X7 ([print] only reads).  With any allocator and however it ends,
    [print] leaves the container, the system heap, the objects and the
    trace as they were and only appends to the output.  It completes
    exactly when every recorded address holds an object; otherwise reading
    through the first address that holds none is undefined behaviour. *)
Theorem print_only_reads c w :
  let r := print (c, w) in
  fst (snd r) = c ∧
  live (snd (snd r)) = live w ∧ objs (snd (snd r)) = objs w ∧
  trace (snd (snd r)) = trace w ∧
  (∃ out, cout (snd (snd r)) = cout w ++ out) ∧
  (fst r = Ok tt ∨ fst r = UB) ∧
  (fst r = Ok tt ↔ ∀ p, p ∈ elements_ c → is_Some (objs w !! p)).
Proof.
  pose proof (print_loop_read_only (elements_ c) c w)
    as (Hc & Hn & Hr & Hl & Ho & Ht & [out Hout] & Hres & Hok).
  cbv zeta in *.
  assert (Hprint : print (c, w)
    = match for_each (λ p : ptr,
               let* v := in_world (deref p) in
               in_world (print_string (pretty v)) ;;;
               in_world (print_string " ")) (elements_ c) (c, w) with
      | (Ok _, (c1, w1)) => (Ok tt, (c1, world_print endl w1))
      | (Throw e, s) => (Throw e, s)
      | (UB, s) => (UB, s)
      end).
  { unfold print. unfold bind at 1. unfold get. cbn [fst]. unfold bind at 1.
    by destruct (for_each _ (elements_ c) (c, w)) as [[[]|e|] [c1 w1]]. }
  rewrite Hprint.
  destruct (for_each _ (elements_ c) (c, w)) as [[[]|e|] [c1 w1]];
    cbn [fst snd world_print live objs trace cout] in *; subst.
  - split_and!; try done.
    exists (out ++ [endl]). by rewrite Hout, <- app_assoc.
  - by destruct Hres.
  - split_and!; try done. by exists out.
Qed.
End ContainerEdges.

(** ** The container on the pool allocator, in general *)

Lemma system_allocations_after_batch {T} bytes k (w : World T) :
  system_allocations (trace (world_news bytes k (world_log EvExpand w)))
  = (system_allocations (trace w) + k)%nat.
Proof.
  rewrite world_news_trace.
  change (trace (world_log EvExpand w)) with (trace w ++ [EvExpand]).
  rewrite !system_allocations_app, system_allocations_news, blocks_from_length.
  change (system_allocations [EvExpand]) with 0%nat. lia.
Qed.

Section PoolContainerEdges.
Context {T : Type} `{SizeOf T} `{Pretty T} {BlockSize : N}.
Implicit Types (a : MyAllocator T BlockSize) (w : World T)
               (c : MyContainer T (MyAllocator T BlockSize)).

(** [push_back] in terms of the allocation it makes. *)
Lemma push_back_ok_world value c w c' w' :
  push_back value (c, w) = (Ok tt, (c', w')) →
  ∃ p a1 w1,
    allocate 1 (alloc_ c, w) = (Ok p, (a1, w1)) ∧
    c' = mkContainer a1 (elements_ c ++ [p])
                     ((size_ c + 1) mod size_t_modulus) ∧
    w' = world_construct p value
           (world_log (EvConstruct p) (world_log (EvAllocate 1 p) w1)).
Proof.
  unfold push_back, traits_allocate, traits_construct, bind, on_alloc,
    in_world, in_object, log, modify, ret. simpl.
  destruct (allocate 1 (alloc_ c, w)) as [[p|e|] [a1 w1]]; simpl; [|done..].
  intros [= <- <-]. by exists p, a1, w1.
Qed.

Lemma push_back_pool value c w fb p :
  1 ≤ BlockSize → free_blocks (alloc_ c) = fb ++ [p] →
  push_back value (c, w)
  = (Ok tt,
     (mkContainer (mkAlloc fb) (elements_ c ++ [p])
                  ((size_ c + 1) mod size_t_modulus),
      world_construct p value
        (world_log (EvConstruct p) (world_log (EvAllocate 1 p) w)))).
Proof.
  intros Hpos Hfb.
  unfold push_back, traits_allocate, traits_construct, bind, on_alloc,
    in_world, in_object, log, modify, ret. simpl.
  by rewrite (allocate_pool_nonempty 1 _ w fb p).
Qed.

(** The two ways a pool allocation can succeed. *)
Lemma allocate_pool_ok_cases n a w p a' w' :
  n ≤ BlockSize →
  allocate n (a, w) = (Ok p, (a', w')) →
  (w' = w ∧ free_blocks a = free_blocks a' ++ [p]) ∨
  (free_blocks a = [] ∧
   w' = world_news sizeof (N.to_nat BlockSize) (world_log EvExpand w) ∧
   S (length (free_blocks a')) = N.to_nat BlockSize).
Proof.
  intros Hn Halloc. destruct a as [l]. destruct l as [|q l _] using rev_ind.
  - right. rewrite allocate_pool_empty in Halloc by done.
    destruct (expand_spec (mkAlloc (BlockSize:=BlockSize) (T:=T) []) w)
      as (j & _ & Hexp & _).
    unfold bind in Halloc. rewrite Hexp in Halloc.
    case_decide as Hj; [|done]. subst j. simpl app in Halloc.
    destruct (N.to_nat BlockSize) as [|k] eqn:Hk; [done|].
    rewrite blocks_from_snoc, take_back_snoc in Halloc. simplify_eq.
    simpl. by rewrite blocks_from_length.
  - left. rewrite (allocate_pool_nonempty n _ w l q) in Halloc by done.
    by simplify_eq.
Qed.

(** X8 (what was appended is what is printed).  For every list of values:
    when appending them to a fresh container on the pool allocator
    completes, the recorded addresses hold exactly these values in order,
    the count is their number, and [print] completes and writes them in
    that order, each followed by a space, then a newline. *)
Theorem appended_values_are_printed vs w0 c w :
  for_each push_back vs
    (MyContainer_ctor (MyAllocator_default : MyAllocator T BlockSize), w0)
  = (Ok tt, (c, w)) →
  holds c w vs ∧
  size_ c = N.of_nat (length vs) mod size_t_modulus ∧
  print (c, w)
  = (Ok tt, (c, mkWorld (next_addr w) (room w) (live w) (objs w) (trace w)
                        (cout w ++ (vs ≫= λ v, [pretty v; " "]) ++ [endl]))).
Proof.
  intros Hrun.
  destruct (appends_inv vs _ _ _ _ [] Hrun (owns_ctor w0))
    as (_ & Hholds & Hlen); [constructor|].
  simpl in Hholds, Hlen. split_and!.
  - exact Hholds.
  - rewrite (reachable_count c), Hlen; [done|].
    eapply appends_reachable; [exact Hrun|constructor].
  - by apply print_holds.
Qed.

Lemma appends_amortised vs c w c' w' :
  1 ≤ BlockSize →
  for_each push_back vs (c, w) = (Ok tt, (c', w')) →
  (length (free_blocks (alloc_ c)) < N.to_nat BlockSize)%nat →
  ∃ d,
    expansions (trace w') = (expansions (trace w) + d)%nat ∧
    system_allocations (trace w')
    = (system_allocations (trace w) + d * N.to_nat BlockSize)%nat ∧
    (length (free_blocks (alloc_ c')) + length vs
     = length (free_blocks (alloc_ c)) + d * N.to_nat BlockSize)%nat ∧
    (length (free_blocks (alloc_ c')) < N.to_nat BlockSize)%nat.
Proof.
  intros Hpos. revert c w. induction vs as [|v vs IH]; intros c w Hrun Hfree.
  - simpl in Hrun. unfold ret in Hrun. simplify_eq. exists 0%nat. simpl. lia.
  - rewrite for_each_cons in Hrun. unfold bind in Hrun.
    destruct (push_back v (c, w)) as [[[]|e|] [c1 w1]] eqn:Hpush; [|done..].
    destruct (push_back_ok_world _ _ _ _ _ Hpush)
      as (p & a1 & w2 & Halloc & -> & ->).
    destruct (allocate_pool_ok_cases 1 _ _ _ _ _ Hpos Halloc)
      as [[-> Hfb]|(Hfb & -> & Hlen)].
    + destruct (IH _ _ Hrun) as (d & He & Hs & Hl & Hf).
      { simpl. rewrite Hfb, length_app in Hfree. simpl in Hfree. lia. }
      exists d. simpl in *. rewrite Hfb, length_app. simpl.
      rewrite He, Hs.
      unfold expansions, system_allocations.
      rewrite !filter_app, !length_app. simpl. lia.
    + destruct (IH _ _ Hrun) as (d & He & Hs & Hl & Hf).
      { simpl. lia. }
      exists (S d). simpl in *. rewrite Hfb. simpl.
      rewrite He, Hs.
      pose proof (expansions_after_batch sizeof (N.to_nat BlockSize) w) as He'.
      pose proof (system_allocations_after_batch sizeof (N.to_nat BlockSize) w)
        as Hs'.
      unfold expansions, system_allocations in *.
      rewrite !filter_app, !length_app. simpl. lia.
Qed.

(** X9 (one expansion per batch of appends).  When [N] appends to a fresh
    container on the pool allocator, with a batch size [B] of at least 1,
    complete, [expand()] was entered exactly [ceil(N / B)] times and the
    system was asked for exactly that many batches of [B] blocks; the
    blocks not yet in use, fewer than [B], wait in the pool. *)
Theorem appends_expand_once_per_batch vs w0 c w :
  1 ≤ BlockSize →
  for_each push_back vs
    (MyContainer_ctor (MyAllocator_default : MyAllocator T BlockSize), w0)
  = (Ok tt, (c, w)) →
  let b := N.to_nat BlockSize in
  let d := ((length vs + b - 1) / b)%nat in
  expansions (trace w) = (expansions (trace w0) + d)%nat ∧
  system_allocations (trace w) = (system_allocations (trace w0) + d * b)%nat ∧
  (length vs + length (free_blocks (alloc_ c)) = d * b)%nat ∧
  (length (free_blocks (alloc_ c)) < b)%nat.
Proof.
  intros Hpos Hrun b d.
  destruct (appends_amortised vs _ _ _ _ Hpos Hrun) as (d' & He & Hs & Hl & Hf).
  { simpl. lia. }
  simpl in Hl. fold b in Hs, Hl, Hf.
  assert (Hd : d = d').
  { unfold d. symmetry.
    apply (Nat.div_unique _ _ d' (b - 1 - length (free_blocks (alloc_ c))));
      [lia|]. rewrite (Nat.mul_comm b d'). lia. }
  rewrite Hd. split_and!; [done|done|lia|done].
Qed.

(** X10 (a copied allocator shares its blocks).  The container's
    constructor copies the allocator it is given, pool included.  Two
    containers constructed from one allocator whose pool holds a block
    therefore both record that same block on their first append, and the
    second append overwrites the element of the first container. *)
Theorem copied_allocator_shares_blocks a fb p v1 v2 w :
  1 ≤ BlockSize → free_blocks a = fb ++ [p] →
  ∃ c1 w1 c2 w2,
    push_back v1 (MyContainer_ctor a, w) = (Ok tt, (c1, w1)) ∧
    push_back v2 (MyContainer_ctor a, w1) = (Ok tt, (c2, w2)) ∧
    elements_ c1 = [p] ∧ elements_ c2 = [p] ∧
    holds c1 w1 [v1] ∧ holds c1 w2 [v2].
Proof.
  intros Hpos Hfb.
  eexists _, _, _, _. split_and!.
  - by apply (push_back_pool v1 (MyContainer_ctor a) w fb p).
  - by apply (push_back_pool v2 (MyContainer_ctor a) _ fb p).
  - done.
  - done.
  - constructor; [|constructor]. simpl. apply lookup_insert_eq.
  - constructor; [|constructor]. simpl. apply lookup_insert_eq.
Qed.
Lemma pool_teardown_loop l c w :
  1 ≤ BlockSize →
  ∃ w',
    for_each (λ p, traits_destroy p ;;; traits_deallocate p 1) l (c, w)
    = (Ok tt, (mkContainer (mkAlloc (free_blocks (alloc_ c) ++ l))
                           (elements_ c) (size_ c), w')) ∧
    live w' = live w ∧ room w' = room w ∧ next_addr w' = next_addr w ∧
    system_releases (trace w') = system_releases (trace w) ∧
    (∀ q, objs w !! q = None ∨ q ∈ l → objs w' !! q = None).
Proof.
  intros Hpos. revert c w. induction l as [|p l IH]; intros c w.
  - exists w. simpl. unfold ret. rewrite app_nil_r, alloc_eta.
    split_and!; try done; [by destruct c|].
    intros q [Hq|Hq]; [done|by apply elem_of_nil in Hq].
  - rewrite for_each_cons. unfold bind at 1.
    rewrite teardown_step_pool by done.
    match goal with
    | |- context [for_each _ l (?c1, ?w1)] =>
        destruct (IH c1 w1) as (w' & Hrun & Hlive & Hroom & Hnext & Hrel & Hobjs)
    end.
    exists w'.
    cbn [alloc_ elements_ size_ free_blocks live room next_addr trace objs
         world_log world_destroy] in *.
    split_and!; try done.
    + by rewrite Hrun, <- app_assoc.
    + rewrite Hrel. unfold system_releases.
      rewrite !filter_app, !length_app. simpl. lia.
    + intros q Hq. apply Hobjs.
      destruct (decide (q = p)) as [->|Hne]; [left; apply lookup_delete_eq|].
      destruct Hq as [Hq|[->|Hq]%elem_of_cons]; [|done|by right].
      left. by rewrite lookup_delete_ne.
Qed.

(** X11 (teardown on the pool returns nothing to the system).  With a
    batch size of at least 1 the destructor of a container on the pool
    allocator completes in every state: every recorded block, in order, is
    pushed onto the pool of [alloc_], no recorded address holds an object
    afterwards, and the system heap is untouched: [::operator delete] is not
    called, the live blocks and the memory left are the same. *)
Theorem pool_teardown_keeps_blocks c w :
  1 ≤ BlockSize →
  ∃ w',
    MyContainer_dtor (c, w)
    = (Ok tt, (mkContainer (mkAlloc (free_blocks (alloc_ c) ++ elements_ c))
                           (elements_ c) (size_ c), w')) ∧
    live w' = live w ∧ room w' = room w ∧
    system_releases (trace w') = system_releases (trace w) ∧
    (∀ q, q ∈ elements_ c → objs w' !! q = None).
Proof.
  intros Hpos.
  destruct (pool_teardown_loop (elements_ c) c w Hpos)
    as (w' & Hrun & Hlive & Hroom & _ & Hrel & Hobjs).
  exists w'. unfold MyContainer_dtor, bind, get. cbn [fst].
  split_and!; try done. intros q Hq. apply Hobjs. by right.
Qed.
End PoolContainerEdges.

(** ** The container on [std::allocator] *)

Section StdContainerEdges.
Context {T : Type} `{SizeOf T} `{Pretty T}.
Implicit Types (w : World T) (c : MyContainer T (StdAllocator T)).

Lemma std_push_back_ok_inv value c w c' w' :
  push_back value (c, w) = (Ok tt, (c', w')) →
  1 * sizeof ≤ room w ∧
  c' = mkContainer (alloc_ c) (elements_ c ++ [next_addr w])
                   ((size_ c + 1) mod size_t_modulus) ∧
  w' = world_construct (next_addr w) value
         (world_log (EvConstruct (next_addr w))
            (world_log (EvAllocate 1 (next_addr w))
               (world_new (1 * sizeof) w))).
Proof.
  unfold push_back, traits_allocate, traits_construct, bind, on_alloc,
    in_world, in_object, log, modify, ret. simpl.
  destruct (size_t_modulus <=? 1 * sizeof); [done|].
  unfold in_world, operator_new.
  destruct (N.leb_spec (1 * sizeof) (room w)) as [Hr|Hr]; simpl; [|done].
  by intros [= <- <-].
Qed.

Lemma std_appends_inv vs c w c' w' :
  for_each push_back vs (c, w) = (Ok tt, (c', w')) →
  elements_ c' = elements_ c ++ blocks_from (next_addr w) (length vs) ∧
  next_addr w' = next_addr w + N.of_nat (length vs) ∧
  room w = room w' + N.of_nat (length vs) * (1 * sizeof) ∧
  (∀ q, q ∈ blocks_from (next_addr w) (length vs) →
        live w' !! q = Some (1 * sizeof)) ∧
  (∀ q, q ∉ blocks_from (next_addr w) (length vs) →
        live w' !! q = live w !! q) ∧
  system_allocations (trace w')
  = (system_allocations (trace w) + length vs)%nat ∧
  system_releases (trace w') = system_releases (trace w).
Proof.
  revert c w. induction vs as [|v vs IH]; intros c w Hrun.
  - simpl in Hrun. unfold ret in Hrun. simplify_eq. simpl.
    rewrite app_nil_r. split_and!; try done; try lia.
    intros q Hq. by apply elem_of_nil in Hq.
  - rewrite for_each_cons in Hrun. unfold bind in Hrun.
    destruct (push_back v (c, w)) as [[[]|e|] [c1 w1]] eqn:Hpush; [|done..].
    apply std_push_back_ok_inv in Hpush as (Hroom & -> & ->).
    destruct (IH _ _ Hrun) as (Hel & Hnext & Hr & Hnew & Hold & Hsa & Hsr).
    cbn [length]. rewrite blocks_from_S.
    cbn [elements_ next_addr room live trace world_construct world_log
         world_new] in *.
    split_and!.
    + rewrite Hel, <- app_assoc. done.
    + lia.
    + lia.
    + intros q [->|Hq]%elem_of_cons; [|by apply Hnew].
      rewrite Hold; [apply lookup_insert_eq|].
      rewrite blocks_from_elem. lia.
    + intros q [Hne Hq]%not_elem_of_cons.
      rewrite Hold by done. by rewrite lookup_insert_ne.
    + rewrite Hsa. unfold system_allocations.
      rewrite !filter_app, !length_app. simpl. lia.
    + rewrite Hsr. unfold system_releases.
      rewrite !filter_app, !length_app. simpl. lia.
Qed.

Lemma std_teardown_loop l bytes c w :
  NoDup l → (∀ q, q ∈ l → live w !! q = Some bytes) →
  ∃ w',
    for_each (λ p, traits_destroy p ;;; traits_deallocate p 1) l (c, w)
    = (Ok tt, (c, w')) ∧
    (∀ q, q ∈ l → live w' !! q = None) ∧
    (∀ q, q ∉ l → live w' !! q = live w !! q) ∧
    room w' = room w + N.of_nat (length l) * bytes ∧
    system_releases (trace w')
    = (system_releases (trace w) + length l)%nat.
Proof.
  intros Hnd. revert w. induction Hnd as [|p l Hp Hnd IH]; intros w Hlive.
  - exists w. simpl. split_and!; try done; try lia.
    intros q Hq. by apply elem_of_nil in Hq.
  - assert (Hstep : (traits_destroy p ;;; traits_deallocate p 1) (c, w)
      = (Ok tt, (c, world_delete p bytes
                      (world_log (EvDeallocate p 1)
                         (world_destroy p (world_log (EvDestroy p) w)))))).
    { unfold traits_destroy, traits_deallocate, bind, on_alloc, in_world, log,
        modify. simpl. unfold in_world, operator_delete. simpl.
      rewrite (Hlive p) by left. by destruct c. }
    rewrite for_each_cons. unfold bind at 1. rewrite Hstep.
    match goal with
    | |- context [for_each _ l (c, ?w1)] =>
        destruct (IH w1) as (w' & Hrun & Hgone & Hkept & Hroom & Hrel)
    end.
    { intros q Hq. simpl. rewrite lookup_delete_ne; [|by intros ->].
      apply Hlive. by right. }
    exists w'. cbn [room live trace world_delete world_log world_destroy] in *.
    split_and!.
    + done.
    + intros q [->|Hq]%elem_of_cons; [|by apply Hgone].
      rewrite Hkept by done. apply lookup_delete_eq.
    + intros q [Hne Hq]%not_elem_of_cons.
      rewrite Hkept by done. by rewrite lookup_delete_ne.
    + rewrite Hroom. cbn [length]. lia.
    + rewrite Hrel. unfold system_releases.
      rewrite !filter_app, !length_app. simpl. lia.
Qed.

(** X12 (the default allocator gives everything back).  A container on
    [std::allocator], created in a heap that has handed out all its live
    addresses and filled by [N] completed appends, made [N] system
    allocations.  Its destructor completes, calls [::operator delete] [N]
    times, and leaves the system heap exactly as it was before the
    container was filled: the same live blocks and the same memory left. *)
Theorem std_container_returns_memory vs w0 c w :
  heap_ok w0 →
  for_each push_back vs (MyContainer_ctor (std_allocator (T:=T)), w0)
  = (Ok tt, (c, w)) →
  system_allocations (trace w)
  = (system_allocations (trace w0) + length vs)%nat ∧
  ∃ w',
    MyContainer_dtor (c, w) = (Ok tt, (c, w')) ∧
    live w' = live w0 ∧ room w' = room w0 ∧
    system_releases (trace w')
    = (system_releases (trace w0) + length vs)%nat.
Proof.
  intros Hheap Hrun.
  destruct (std_appends_inv _ _ _ _ _ Hrun)
    as (Hel & Hnext & Hroom & Hnew & Hold & Hsa & Hsr).
  simpl in Hel. split; [exact Hsa|].
  destruct (std_teardown_loop (elements_ c) (1 * sizeof) c w)
    as (w' & Hloop & Hgone & Hkept & Hroom' & Hrel).
  { rewrite Hel. apply blocks_from_NoDup. }
  { intros q Hq. apply Hnew. by rewrite <- Hel. }
  exists w'. unfold MyContainer_dtor, bind, get. cbn [fst].
  split_and!.
  - exact Hloop.
  - apply map_eq. intros q.
    destruct (decide (q ∈ elements_ c)) as [Hq|Hq].
    + rewrite Hgone by done. symmetry. apply eq_None_not_Some. intros Hsome.
      apply Hheap in Hsome. rewrite Hel in Hq.
      apply blocks_from_elem in Hq. lia.
    + rewrite Hkept by done. apply Hold. by rewrite <- Hel.
  - rewrite Hroom', Hel, blocks_from_length. lia.
  - rewrite Hrel, Hsr, Hel, blocks_from_length. done.
Qed.
End StdContainerEdges.

(** ** [factorial] over the whole range of [int] *)

Lemma factorial_rec_more_fuel fuel n r :
  factorial_rec fuel n = Some r → factorial_rec (S fuel) n = Some r.
Proof.
  revert n r. induction fuel as [|fuel IH]; intros n r.
  - simpl. by destruct (n <=? 1)%Z.
  - intros Hrec. simpl in Hrec. cbn [factorial_rec].
    cbn [factorial_rec] in IH.
    destruct (n <=? 1)%Z; [done|].
    destruct (factorial_rec fuel (n - 1)) as [r1|] eqn:Hr1; [|done].
    by rewrite (IH _ _ Hr1).
Qed.

Lemma factorial_rec_12 fuel :
  (11 ≤ fuel)%nat → factorial_rec fuel 12 = Some (Some 479001600%Z).
Proof.
  induction 1 as [|fuel _ IH]; [by vm_compute|].
  by apply factorial_rec_more_fuel.
Qed.

Lemma factorial_rec_overflow fuel n :
  (13 ≤ n)%Z → (n ≤ Z.of_nat fuel + 1)%Z → factorial_rec fuel n = Some None.
Proof.
  revert n. induction fuel as [|fuel IH]; intros n Hn Hfuel; [lia|].
  cbn [factorial_rec]. destruct (Z.leb_spec n 1); [lia|].
  destruct (decide (n = 13%Z)) as [->|Hne].
  - change (13 - 1)%Z with 12%Z. rewrite factorial_rec_12 by lia. done.
  - by rewrite IH by lia.
Qed.

(** X13 ([factorial] on every [int]).  [factorial(n)] is 1 for every
    [n <= 1], negative arguments included; it is the product of 1 to [n]
    for [n] from 0 to 12; and for every [n >= 13] the recursion reaches
    the multiplication [13 * 12!], which overflows [int]: undefined
    behaviour, and not a recursion that ran out of depth. *)
Theorem factorial_on_every_int n :
  (n ≤ 1 → factorial n = Some 1)%Z ∧
  (0 ≤ n ≤ 12 → factorial n = Some (product_upto (Z.to_nat n)))%Z ∧
  (13 ≤ n →
   factorial_rec (Z.to_nat n) n = Some None ∧ factorial n = None)%Z.
Proof.
  split_and!.
  - intros Hn. unfold factorial.
    destruct (Z.to_nat n); simpl; by destruct (Z.leb_spec n 1); [|lia].
  - intros Hn.
    assert (Hcases : (n = 0 ∨ n = 1 ∨ n = 2 ∨ n = 3 ∨ n = 4 ∨ n = 5 ∨ n = 6 ∨
                      n = 7 ∨ n = 8 ∨ n = 9 ∨ n = 10 ∨ n = 11 ∨ n = 12)%Z)
      by lia.
    destruct_or!; subst n; by vm_compute.
  - intros Hn. unfold factorial.
    rewrite factorial_rec_overflow; [done|done|lia].
Qed.

Section BypassEdges.
Context {T : Type} `{SizeOf T} {BlockSize : N}.
Implicit Types (a : MyAllocator T BlockSize) (w : World T).

(** X14 (a bypass block goes back to the system, once).  For
    [n > BlockSize] and a heap that has handed out all its live addresses:
    [p = allocate(n); deallocate(p, n)] completes with one system
    allocation and one system release, and leaves the free list, the live
    blocks and the memory left exactly as before; releasing [p] a second
    time with such a count is undefined behaviour. *)
Theorem bypass_round_trip n a w :
  BlockSize < n →
  (n * sizeof) mod size_t_modulus ≤ room w →
  heap_ok w →
  ∃ w',
    (let* p := allocate n in deallocate p n ;;; ret p) (a, w)
    = (Ok (next_addr w), (a, w')) ∧
    live w' = live w ∧ room w' = room w ∧
    system_allocations (trace w') = S (system_allocations (trace w)) ∧
    system_releases (trace w') = S (system_releases (trace w)) ∧
    fst (deallocate (next_addr w) n (a, w')) = UB.
Proof.
  intros Hn Hroom Hheap.
  set (bytes := (n * sizeof) mod size_t_modulus) in *.
  assert (Hfresh : live w !! next_addr w = None).
  { apply eq_None_not_Some. intros Hsome. apply Hheap in Hsome. lia. }
  exists (world_delete (next_addr w) bytes (world_new bytes w)).
  split_and!.
  - unfold bind at 1. rewrite allocate_bypass by done. unfold in_world at 1.
    rewrite operator_new_ok by done.
    unfold bind. rewrite deallocate_bypass by done.
    unfold in_world, operator_delete.
    cbn [live world_new]. rewrite lookup_insert_eq. by destruct a.
  - cbn [live world_delete world_new]. by rewrite delete_insert_id.
  - cbn [room world_delete world_new]. lia.
  - cbn [trace world_delete world_new]. unfold system_allocations.
    rewrite !filter_app, !length_app. simpl. lia.
  - cbn [trace world_delete world_new]. unfold system_releases.
    rewrite !filter_app, !length_app. simpl. lia.
  - rewrite deallocate_bypass by done. unfold in_world, operator_delete.
    cbn [live world_delete world_new].
    by rewrite lookup_delete_eq.
Qed.
End BypassEdges.

Section StdContainerPrint.
Context {T : Type} `{SizeOf T} `{Pretty T}.
Implicit Types (w : World T) (c : MyContainer T (StdAllocator T)).

Lemma std_appends_holds vs us c w c' w' :
  for_each push_back vs (c, w) = (Ok tt, (c', w')) →
  holds c w us →
  (∀ q, q ∈ elements_ c → q < next_addr w) →
  holds c' w' (us ++ vs).
Proof.
  revert us c w. induction vs as [|v vs IH]; intros us c w Hrun Hholds Hbelow.
  - simpl in Hrun. unfold ret in Hrun. simplify_eq. by rewrite app_nil_r.
  - rewrite for_each_cons in Hrun. unfold bind in Hrun.
    destruct (push_back v (c, w)) as [[[]|e|] [c1 w1]] eqn:Hpush; [|done..].
    apply std_push_back_ok_inv in Hpush as (Hroom & -> & ->).
    rewrite (cons_middle v us vs), app_assoc.
    apply (IH (us ++ [v]) _ _ Hrun).
    + unfold holds in *.
      cbn [elements_ objs world_construct world_log world_new].
      apply Forall2_app.
      * eapply Forall2_impl_elem; [exact Hholds|].
        intros q x Hq Hx. rewrite lookup_insert_ne; [done|].
        apply Hbelow in Hq. lia.
      * constructor; [apply lookup_insert_eq|constructor].
    + cbn [elements_ next_addr world_construct world_log world_new].
      intros q [Hq| ->%list_elem_of_singleton]%elem_of_app; [|lia].
      apply Hbelow in Hq. lia.
Qed.

Lemma std_print_loop_holds ps vs c w :
  Forall2 (λ p v, objs w !! p = Some v) ps vs →
  for_each (λ p : ptr,
    let* v := in_world (deref p) in
    in_world (print_string (pretty v)) ;;;
    in_world (print_string " ")) ps (c, w)
  = (Ok tt, (c, mkWorld (next_addr w) (room w) (live w) (objs w) (trace w)
                        (cout w ++ (vs ≫= λ v, [pretty v; " "])))).
Proof.
  revert vs w. induction ps as [|p ps IH]; intros vs w Hall.
  - apply Forall2_nil_inv_l in Hall as ->. simpl. unfold ret.
    rewrite app_nil_r. by destruct w.
  - apply Forall2_cons_inv_l in Hall as (v & vs' & Hp & Hrest & ->).
    simpl for_each. unfold bind at 1. unfold bind at 1.
    unfold in_world at 1, deref. rewrite Hp.
    unfold bind, in_world at 1 2, print_string, modify.
    rewrite (IH vs') by done. simpl. by rewrite <- !app_assoc.
Qed.

Lemma std_print_holds vs c w :
  holds c w vs →
  print (c, w)
  = (Ok tt, (c, mkWorld (next_addr w) (room w) (live w) (objs w) (trace w)
                        (cout w ++ (vs ≫= λ v, [pretty v; " "]) ++ [endl]))).
Proof.
  intros Hholds. unfold print, bind, get. simpl fst.
  rewrite (std_print_loop_holds _ vs) by done.
  unfold in_world, print_string, modify, world_print. simpl.
  by rewrite <- app_assoc.
Qed.

(** X15 (the default allocator: what was appended is what is printed).
    For every list of values: when appending them to a fresh container on
    [std::allocator] completes, the container records the consecutive
    addresses the system handed out, these hold exactly the values in
    order, and [print] completes and writes them in that order, each
    followed by a space, then a newline. *)
Theorem std_appended_values_are_printed vs w0 c w :
  for_each push_back vs (MyContainer_ctor (std_allocator (T:=T)), w0)
  = (Ok tt, (c, w)) →
  elements_ c = blocks_from (next_addr w0) (length vs) ∧
  holds c w vs ∧
  print (c, w)
  = (Ok tt, (c, mkWorld (next_addr w) (room w) (live w) (objs w) (trace w)
                        (cout w ++ (vs ≫= λ v, [pretty v; " "]) ++ [endl]))).
Proof.
  intros Hrun.
  assert (Hholds : holds c w vs).
  { apply (std_appends_holds vs [] _ _ _ _ Hrun); [constructor|].
    intros q Hq. by apply elem_of_nil in Hq. }
  split_and!.
  - by destruct (std_appends_inv _ _ _ _ _ Hrun) as (Hel & _).
  - exact Hholds.
  - by apply std_print_holds.
Qed.
End StdContainerPrint.

(** ** Concrete instances of the further properties *)

Lemma allocate_out_of_memory_witness :
  1 ≤ 3 ∧ 0 < sizeof (T:=Z) ∧
  room (tight_world (T:=Z)) < 3 * sizeof (T:=Z) ∧
  allocate 1 (MyAllocator_default : MyAllocator Z 3, tight_world)
  = (Throw bad_alloc,
     (mkAlloc [1; 2],
      world_news (sizeof (T:=Z)) 2 (world_log EvExpand tight_world))).
Proof.
  assert (H1 : 1 ≤ 3) by lia.
  assert (H2 : 0 < sizeof (T:=Z)) by (simpl; lia).
  assert (H3 : room (tight_world (T:=Z)) < 3 * sizeof (T:=Z)) by (simpl; lia).
  split; [exact H1|]. split; [exact H2|]. split; [exact H3|].
  exact (proj1 (allocate_out_of_memory (T:=Z) (BlockSize:=3) 1
                  MyAllocator_default tight_world H1 eq_refl H2 H3)).
Defined.

Lemma bypass_block_size_witness :
  3 < 2 ^ 62 ∧
  (2 ^ 62 * sizeof (T:=Z)) mod size_t_modulus ≤ room (small_world (T:=Z)) ∧
  allocate (2 ^ 62) (MyAllocator_default : MyAllocator Z 3, small_world)
  = (Ok 1, (MyAllocator_default, world_new 0 small_world)).
Proof.
  assert (H1 : 3 < 2 ^ 62) by (vm_compute; reflexivity).
  assert (H2 : (2 ^ 62 * sizeof (T:=Z)) mod size_t_modulus
               ≤ room (small_world (T:=Z))) by (vm_compute; discriminate).
  split; [exact H1|]. split; [exact H2|].
  exact (proj1 (bypass_block_size (T:=Z) (BlockSize:=3) (2 ^ 62)
                  MyAllocator_default small_world H1 H2)).
Defined.

Lemma release_then_allocate_witness :
  1 ≤ 3 ∧
  (for_each (λ p, deallocate p 1) [7; 7] ;;; allocations [1; 1])
    (mkAlloc (T:=Z) (BlockSize:=3) [5], small_world)
  = (Ok [7; 7], (mkAlloc [5], small_world)).
Proof.
  assert (H1 : 1 ≤ 3) by lia.
  split; [exact H1|].
  assert (Hns : Forall (λ m, m ≤ 3) [1; 1]) by (repeat constructor; lia).
  exact (release_then_allocate (T:=Z) (BlockSize:=3) [7; 7] [1; 1] 1
           (mkAlloc [5]) small_world H1 Hns eq_refl).
Defined.

Lemma pool_keeps_its_memory_witness :
  Forall (λ c, call_count c ≤ 3) [CallAllocate 1; CallDeallocate 5 1] ∧
  system_releases (trace (snd (snd (for_each run_call
    [CallAllocate 1; CallDeallocate 5 1]
    (MyAllocator_default : MyAllocator Z 3, small_world)))))
  = system_releases (trace (small_world (T:=Z))).
Proof.
  assert (H1 : 1 ≤ 3) by lia.
  assert (Hcs : Forall (λ c, call_count c ≤ 3)
                  [CallAllocate 1; CallDeallocate 5 1])
    by (repeat constructor; simpl; lia).
  split; [exact Hcs|].
  exact (proj1 (pool_keeps_its_memory (T:=Z) (BlockSize:=3) _
                  MyAllocator_default small_world Hcs)).
Defined.

Lemma appends_stop_at_first_failure_witness :
  size_ small_container < size_t_modulus ∧
  ∃ ps,
    elements_ (fst (snd (for_each push_back [7; 8; 9]%Z
                           (small_container, tight_world))))
    = elements_ small_container ++ ps.
Proof.
  assert (H1 : size_ small_container < size_t_modulus)
    by (vm_compute; reflexivity).
  split; [exact H1|].
  destruct (appends_stop_at_first_failure [7; 8; 9]%Z small_container
              tight_world H1) as (ps & Hel & _).
  exists ps. exact Hel.
Defined.

Lemma appended_values_are_printed_witness :
  let R := for_each push_back [7; 8]%Z
             (MyContainer_ctor (MyAllocator_default : MyAllocator Z 3),
              small_world) in
  R = (Ok tt, (R.2.1, R.2.2)) ∧ holds R.2.1 R.2.2 [7; 8]%Z.
Proof.
  intros R.
  assert (HR : R = (Ok tt, (R.2.1, R.2.2))) by (vm_compute; reflexivity).
  split; [exact HR|].
  exact (proj1 (appended_values_are_printed (T:=Z) (BlockSize:=3) [7; 8]%Z
                  small_world R.2.1 R.2.2 HR)).
Defined.

Lemma appends_expand_once_per_batch_witness :
  let R := for_each push_back [7; 8; 9; 10]%Z
             (MyContainer_ctor (MyAllocator_default : MyAllocator Z 3),
              small_world) in
  1 ≤ 3 ∧ R = (Ok tt, (R.2.1, R.2.2)) ∧
  expansions (trace R.2.2)
  = (expansions (trace (small_world (T:=Z))) + (4 + 3 - 1) / 3)%nat.
Proof.
  intros R.
  assert (H1 : 1 ≤ 3) by lia.
  assert (HR : R = (Ok tt, (R.2.1, R.2.2))) by (vm_compute; reflexivity).
  split; [exact H1|]. split; [exact HR|].
  exact (proj1 (appends_expand_once_per_batch (T:=Z) (BlockSize:=3)
                  [7; 8; 9; 10]%Z small_world R.2.1 R.2.2 H1 HR)).
Defined.

Lemma copied_allocator_shares_blocks_witness :
  1 ≤ 3 ∧
  ∃ c1 w1 c2 w2,
    push_back 7%Z (MyContainer_ctor (mkAlloc (T:=Z) (BlockSize:=3) [5; 6]),
                   small_world) = (Ok tt, (c1, w1)) ∧
    push_back 8%Z (MyContainer_ctor (mkAlloc (T:=Z) (BlockSize:=3) [5; 6]), w1)
    = (Ok tt, (c2, w2)) ∧
    elements_ c1 = [6] ∧ elements_ c2 = [6].
Proof.
  assert (H1 : 1 ≤ 3) by lia.
  split; [exact H1|].
  destruct (copied_allocator_shares_blocks (T:=Z) (BlockSize:=3)
              (mkAlloc [5; 6]) [5] 6 7%Z 8%Z small_world H1 eq_refl)
    as (c1 & w1 & c2 & w2 & Hp1 & Hp2 & He1 & He2 & _).
  exists c1, w1, c2, w2. split; [exact Hp1|]. split; [exact Hp2|].
  split; [exact He1|exact He2].
Defined.

Lemma pool_teardown_keeps_blocks_witness :
  1 ≤ 3 ∧
  ∃ w', MyContainer_dtor (small_container, small_world)
        = (Ok tt, (mkContainer (mkAlloc [1; 2; 3]) [3] 1, w')) ∧
        live w' = live (small_world (T:=Z)).
Proof.
  assert (H1 : 1 ≤ 3) by lia.
  split; [exact H1|].
  destruct (pool_teardown_keeps_blocks small_container small_world H1)
    as (w' & Hrun & Hlive & _).
  exists w'. split; [exact Hrun|exact Hlive].
Defined.

Lemma std_container_returns_memory_witness :
  let R := for_each push_back [7; 8]%Z
             (MyContainer_ctor (std_allocator (T:=Z)), small_world) in
  heap_ok (small_world (T:=Z)) ∧ R = (Ok tt, (R.2.1, R.2.2)) ∧
  ∃ w', MyContainer_dtor (R.2.1, R.2.2) = (Ok tt, (R.2.1, w')) ∧
        live w' = live (small_world (T:=Z)) ∧
        room w' = room (small_world (T:=Z)).
Proof.
  intros R.
  assert (H1 : heap_ok (small_world (T:=Z))).
  { intros p [x Hx]. simpl in Hx. by rewrite lookup_empty in Hx. }
  assert (HR : R = (Ok tt, (R.2.1, R.2.2))) by (vm_compute; reflexivity).
  split; [exact H1|]. split; [exact HR|].
  destruct (std_container_returns_memory (T:=Z) [7; 8]%Z small_world
              R.2.1 R.2.2 H1 HR) as (_ & w' & Hrun & Hlive & Hroom & _).
  exists w'. split; [exact Hrun|]. split; [exact Hlive|exact Hroom].
Defined.

Lemma factorial_on_every_int_witness :
  (13 ≤ 20)%Z ∧ factorial 20 = None.
Proof.
  assert (H1 : (13 ≤ 20)%Z) by lia.
  split; [exact H1|].
  exact (proj2 (proj2 (proj2 (factorial_on_every_int 20)) H1)).
Defined.

Lemma bypass_round_trip_witness :
  3 < 4 ∧ (4 * sizeof (T:=Z)) mod size_t_modulus ≤ room (small_world (T:=Z)) ∧
  heap_ok (small_world (T:=Z)) ∧
  ∃ w',
    (let* p := allocate 4 in deallocate p 4 ;;; ret p)
      (MyAllocator_default : MyAllocator Z 3, small_world)
    = (Ok 1, (MyAllocator_default, w')) ∧
    live w' = live (small_world (T:=Z)) ∧ room w' = room (small_world (T:=Z)).
Proof.
  assert (H1 : 3 < 4) by lia.
  assert (H2 : (4 * sizeof (T:=Z)) mod size_t_modulus
               ≤ room (small_world (T:=Z))) by (vm_compute; discriminate).
  assert (H3 : heap_ok (small_world (T:=Z))).
  { intros p [x Hx]. simpl in Hx. by rewrite lookup_empty in Hx. }
  split; [exact H1|]. split; [exact H2|]. split; [exact H3|].
  destruct (bypass_round_trip (T:=Z) (BlockSize:=3) 4 MyAllocator_default
              small_world H1 H2 H3) as (w' & Hrun & Hlive & Hroom & _).
  exists w'. split; [exact Hrun|]. split; [exact Hlive|exact Hroom].
Defined.

Lemma std_appended_values_are_printed_witness :
  let R := for_each push_back [7; 8]%Z
             (MyContainer_ctor (std_allocator (T:=Z)), small_world) in
  R = (Ok tt, (R.2.1, R.2.2)) ∧ holds R.2.1 R.2.2 [7; 8]%Z.
Proof.
  intros R.
  assert (HR : R = (Ok tt, (R.2.1, R.2.2))) by (vm_compute; reflexivity).
  split; [exact HR|].
  exact (proj1 (proj2 (std_appended_values_are_printed (T:=Z) [7; 8]%Z
                         small_world R.2.1 R.2.2 HR))).
Defined.
